(** * PipeCopy: two processes copying a file through a pipe

    A shallow embedding of [Problem 3/PipeCopy.c].  The program talks to the
    kernel through [pipe], [fork], [wait], [open], [read], [write] and
    [close]; a process that executes [main] is described by the sequence of
    kernel answers it receives (its _script_) and produces the sequence of
    calls it makes (its _trace_) and, when it returns from [main], its exit
    code.

    [main] is run by three processes, which differ in what [fork] returns
    to them: a positive pid twice in the parent, 0 at the first [fork] in
    child 1, a positive pid and then 0 in child 2.  The script and the
    trace of a child start with the answers and calls of its parent up to
    the [fork] that created it, as the child continues from there with a
    copy of the parent's state. *)

From Stdlib Require Import ZArith List String Ascii Bool Lia.
From Stdlib.Strings Require Import Byte.
From stdpp Require Import base option list strings gmap.

Local Open Scope Z_scope.

(** ** Constants and machine integers *)

(** [#define BLOCK_SIZE 1024] *)
Definition BLOCK_SIZE : Z := 1024.

(** Conversion of an integer to [int16_t] (two's complement wrap-around),
    as performed by the assignment [read_count = read(...)]. *)
Definition to_int16 (z : Z) : Z :=
  let m := z mod 65536 in
  if m <? 32768 then m else m - 65536.

(** [WEXITSTATUS(status)] as in glibc: bits 8..15 of the wait status. *)
Definition WEXITSTATUS (status : Z) : Z :=
  Z.shiftr (Z.land status 65280) 8.

(** Flags and permission bits handed to [open]. *)
Inductive open_flag := O_RDONLY | O_WRONLY | O_CREAT | O_TRUNC.
Inductive mode_bit := S_IRUSR | S_IWUSR | S_IRGRP | S_IWGRP | S_IROTH.

(** ** Console output *)

Inductive stream := Stdout | Stderr.

(** Arguments of a [printf] conversion: [%d] takes an integer, [%s] a
    string; [AStrerror e] is the string [strerror(e)]. *)
Inductive arg :=
| AInt (z : Z)
| AStr (s : string)
| AStrerror (e : Z).

Definition LF : string := String (ascii_of_nat 10) EmptyString.
Definition DQ : string := String (ascii_of_nat 34) EmptyString.

Definition fmt_pipe_failed : string :=
  "ERROR: Pipe creation failed." +:+ LF.
Definition fmt_child_ok : string :=
  "SUCCESS: Child %d finished normally." +:+ LF.
Definition fmt_child_failed : string :=
  "ERROR: Child %d finished abnormally with status %d" +:+ LF.
Definition fmt_all_ok : string :=
  "SUCCESS: All children are terminated normally." +:+ LF.
Definition fmt_some_failed : string :=
  "ERROR: One or more child finished abnormally. Operation failed." +:+ LF.
Definition fmt_open_src : string :=
  "ERROR: Unable to open source file " +:+ DQ +:+ "%s" +:+ DQ +:+ " (%s)" +:+ LF.
Definition fmt_open_dest : string :=
  "ERROR: Unable to open destination file " +:+ DQ +:+ "%s" +:+ DQ +:+ " (%s)" +:+ LF.
Definition fmt_copy_error : string :=
  "ERROR: error while copying: %s" +:+ LF.
Definition fmt_fork_failed : string :=
  "ERROR: Unable to for process!" +:+ LF.
Definition fmt_progress : string :=
  "[%d] %d bytes copied..." +:+ LF.

(** ** Kernel answers and observable calls *)

(** What a [read] can deliver: an error (return value -1, [errno] set) or
    the bytes that are available right now; an empty list is end of
    stream. *)
Inductive read_outcome :=
| ReadFail (e : Z)
| ReadBytes (avail : list byte).

(** One kernel answer, for the calls whose result the program inspects. *)
Inductive response :=
| RPipeOk (rd wr : Z)
| RPipeFail (e : Z)
| RFork (ret : Z)
| RWait (done status : Z)
| ROpen (ret e : Z)
| RRead (o : read_outcome).

(** One call made by the process, with its arguments and, where the
    program looks at it, its result: [EPipe] shows the descriptor array
    after the call, [ERead] the bytes the kernel delivered. *)
Inductive event :=
| EPipe (ret : Z) (fd : Z * Z)
| EFork (ret : Z)
| EWait (done status : Z)
| EOpen (path : string) (flags : list open_flag) (mode : list mode_bit) (ret : Z)
| ERead (fd count ret : Z) (data : list byte)
| EWrite (fd : Z) (data : list byte)
| EClose (fd : Z)
| EPrintf (out : stream) (fmt : string) (args : list arg).

(** ** The process monad *)

(** State of the executing process: the kernel answers still to come and
    the C global [errno]. *)
Record proc := Proc { script : list response; errno : Z }.

(** A computation emits the calls it made and either finishes with a value
    or stops where the script has no (matching) answer for the next
    call. *)
Definition M (A : Type) : Type := proc -> list event * option (A * proc).

#[global] Instance M_ret : MRet M := fun A a st => ([], Some (a, st)).

#[global] Instance M_bind : MBind M := fun A B k m st =>
  match m st with
  | (t1, None) => (t1, None)
  | (t1, Some (a, st1)) =>
      let '(t2, r) := k a st1 in (t1 ++ t2, r)
  end.

Definition emit (e : event) : M unit := fun st => ([e], Some (tt, st)).

Definition answer {A} (f : response -> Z -> option (event * A * Z)) : M A :=
  fun st =>
    match script st with
    | [] => ([], None)
    | r :: rest =>
        match f r (errno st) with
        | Some (e, a, en) => ([e], Some (a, Proc rest en))
        | None => ([], None)
        end
    end.

(** ** System calls *)

(** [pipe(fd)]: returns 0 and stores the two descriptors, or returns -1
    and leaves [fd] alone. *)
Definition pipe (fd : Z * Z) : M (Z * (Z * Z)) :=
  answer (fun r en =>
    match r with
    | RPipeOk rd wr => Some (EPipe 0 (rd, wr), (0, (rd, wr)), en)
    | RPipeFail e => Some (EPipe (-1) fd, (-1, fd), e)
    | _ => None
    end).

Definition fork : M Z :=
  answer (fun r en =>
    match r with
    | RFork ret => Some (EFork ret, ret, en)
    | _ => None
    end).

(** [wait(&status)]: the reaped process id and the value left in [status]. *)
Definition wait : M (Z * Z) :=
  answer (fun r en =>
    match r with
    | RWait done status => Some (EWait done status, (done, status), en)
    | _ => None
    end).

Definition open (path : string) (flags : list open_flag) (mode : list mode_bit) : M Z :=
  answer (fun r en =>
    match r with
    | ROpen ret e => Some (EOpen path flags mode ret, ret, if ret <? 0 then e else en)
    | _ => None
    end).

(** The bytes one [read] of at most [count] bytes delivers. *)
Definition delivered (o : read_outcome) (count : Z) : list byte :=
  match o with
  | ReadFail _ => []
  | ReadBytes avail => take (Z.to_nat count) avail
  end.

(** Effect of one [read] on its return value and on the caller's buffer:
    the delivered bytes replace the front of the buffer. *)
Definition sys_read (o : read_outcome) (count : Z) (buffer : list byte) : Z * list byte :=
  let d := delivered o count in
  match o with
  | ReadFail _ => (-1, buffer)
  | ReadBytes _ => (Z.of_nat (length d), d ++ drop (length d) buffer)
  end.

Definition read (fd : Z) (buffer : list byte) (count : Z) : M (Z * list byte) :=
  answer (fun r en =>
    match r with
    | RRead o =>
        let '(ret, buffer') := sys_read o count buffer in
        Some (ERead fd count ret (delivered o count), (ret, buffer'),
              match o with ReadFail e => e | ReadBytes _ => en end)
    | _ => None
    end).

(** [write(fd, buffer, count)]; the program discards the result. *)
Definition write (fd : Z) (buffer : list byte) (count : Z) : M unit :=
  emit (EWrite fd (take (Z.to_nat count) buffer)).

Definition close (fd : Z) : M unit := emit (EClose fd).

Definition printf (fmt : string) (args : list arg) : M unit :=
  emit (EPrintf Stdout fmt args).

Definition fprintf (out : stream) (fmt : string) (args : list arg) : M unit :=
  emit (EPrintf out fmt args).

(** [strerror(errno)] *)
Definition strerror_errno : M arg := fun st => ([], Some (AStrerror (errno st), st)).

(** ** [copy] *)

(** The local array [uint8_t buffer[BLOCK_SIZE]]; its initial contents are
    indeterminate in C and never read before being overwritten. *)
Definition fresh_buffer : list byte := replicate (Z.to_nat BLOCK_SIZE) x00.

(** The [while] loop of [copy].  Every iteration consumes one answer of the
    script, so [fuel] larger than the script length never runs out. *)
Fixpoint copy_loop (fuel : nat) (src dest pid : Z) (buffer : list byte) : M Z :=
  match fuel with
  | O => fun _ => ([], None)
  | S fuel' =>
      '(ret, buffer) ← read src buffer BLOCK_SIZE;
      let read_count := to_int16 ret in
      if read_count >? 0 then
        printf fmt_progress [AInt pid; AInt read_count];;
        write dest buffer read_count;;
        copy_loop fuel' src dest pid buffer
      else
        mret read_count
  end.

Definition copy (src dest pid : Z) : M Z :=
  fun st => copy_loop (S (length (script st))) src dest pid fresh_buffer st.

(** ** [main] *)

(** The [for] loop of the parent: [n] iterations remain. *)
Fixpoint wait_loop (n : nat) (child_1 : Z) (error : bool) : M bool :=
  match n with
  | O => mret error
  | S n' =>
      '(done, status) ← wait;
      let status := WEXITSTATUS status in
      let child_number := if child_1 =? done then 1 else 2 in
      if status =? 0 then
        printf fmt_child_ok [AInt child_number];;
        wait_loop n' child_1 error
      else
        printf fmt_child_failed [AInt child_number; AInt status];;
        wait_loop n' child_1 true
  end.

Definition argv_at (argv : list string) (i : nat) : string :=
  nth i argv EmptyString.

(** Code for parent after forking child 2. *)
Definition parent_code (fd : Z * Z) (child_1 : Z) : M Z :=
  close fd.1;;
  close fd.2;;
  error ← wait_loop 2 child_1 false;
  if negb error then
    printf fmt_all_ok [];;
    mret 0
  else
    printf fmt_some_failed [];;
    mret 2.

(** Code for child 1 (read file). *)
Definition child_1_code (fd : Z * Z) (argv : list string) : M Z :=
  close fd.1;;
  src ← open (argv_at argv 1) [O_RDONLY] [];
  if src <? 0 then
    reason ← strerror_errno;
    printf fmt_open_src [AStr (argv_at argv 1); reason];;
    close fd.2;;
    mret 1
  else
  r ← copy src fd.2 1;
  if r <? 0 then
    reason ← strerror_errno;
    printf fmt_copy_error [reason];;
    close src;;
    close fd.2;;
    mret 2
  else
  close src;;
  close fd.2;;
  mret 0.

(** Code for child 2 (write file). *)
Definition child_2_code (fd : Z * Z) (argv : list string) : M Z :=
  close fd.2;;
  dest ← open (argv_at argv 2) [O_WRONLY; O_CREAT; O_TRUNC]
              [S_IRUSR; S_IWUSR; S_IRGRP; S_IWGRP; S_IROTH];
  if dest <? 0 then
    reason ← strerror_errno;
    printf fmt_open_dest [AStr (argv_at argv 2); reason];;
    close fd.1;;
    mret 1
  else
  r ← copy fd.1 dest 2;
  if r <? 0 then
    reason ← strerror_errno;
    printf fmt_copy_error [reason];;
    close dest;;
    close fd.1;;
    mret 2
  else
  close dest;;
  close fd.1;;
  mret 0.

(** Code for error handling. *)
Definition error_code (child_1 child_2 : Z) : M Z :=
  if (child_1 <? 0) || (child_2 <? 0) then
    printf fmt_fork_failed [];;
    mret 1
  else
    mret 0.

(** [main]: [fd] is the uninitialised array [int fd[2]] that [pipe]
    fills, [child_2] starts at 0 and is assigned only when the first
    [fork] returned a positive pid; the four blocks above are tried in the
    order of the source, and each of the first three ends in a [return]. *)
Definition main (argv : list string) : M Z :=
  '(failed, fd) ← pipe (0, 0);
  if negb (failed =? 0) then
    fprintf Stderr fmt_pipe_failed [];;
    mret 1
  else
  child_1 ← fork;
  child_2 ← (if child_1 >? 0 then fork else mret 0);
  if child_2 >? 0 then parent_code fd child_1
  else if child_1 =? 0 then child_1_code fd argv
  else if child_2 =? 0 then child_2_code fd argv
  else error_code child_1 child_2.

(** Running a process from its start: [errno] is 0, the trace and, if the
    process returned from [main], its exit code. *)
Definition exec (p : M Z) (s : list response) : list event * option Z :=
  let '(t, r) := p (Proc s 0) in (t, fst <$> r).

(** * Vocabulary of the statements

    Scripts, traces and observations used to state the properties of the
    program: none of these definitions is part of the program. *)

(** ** Lines printed by the parent *)

(** What the parent is expected to print for a worker with ordinal [n]
    whose wait status is [status], and after both records. *)
Definition child_line (n status : Z) : event :=
  if WEXITSTATUS status =? 0
  then EPrintf Stdout fmt_child_ok [AInt n]
  else EPrintf Stdout fmt_child_failed [AInt n; AInt (WEXITSTATUS status)].

Definition aggregate_line (ok : bool) : event :=
  EPrintf Stdout (if ok then fmt_all_ok else fmt_some_failed) [].

Definition is_wait (e : event) : bool :=
  match e with EWait _ _ => true | _ => false end.

(** ** Scripts and traces of the copy loop *)

(** The calls of one iteration of the loop of [copy] when the read finds
    [avail] available. *)
Definition block_events (src dest pid : Z) (avail : list byte) : list event :=
  let d := take (Z.to_nat BLOCK_SIZE) avail in
  [ERead src BLOCK_SIZE (Z.of_nat (length d)) d;
   EPrintf Stdout fmt_progress [AInt pid; AInt (Z.of_nat (length d))];
   EWrite dest d].

(** The kernel answers for a run of reads that each find one of [blocks]
    available. *)
Definition positive_reads (blocks : list (list byte)) : list response :=
  map (fun b => RRead (ReadBytes b)) blocks.

(** What a worker does once [copy] has returned [r], with [errno] as [copy]
    left it. *)
Definition closing (r file pipe_end en : Z) : list event :=
  if r <? 0
  then [EPrintf Stdout fmt_copy_error [AStrerror en]; EClose file; EClose pipe_end]
  else [EClose file; EClose pipe_end].

Definition is_read (e : event) : bool :=
  match e with ERead _ _ _ _ => true | _ => false end.

(** The byte count of a progress line tagged [pid]. *)
Definition progress_count (pid : Z) (e : event) : option Z :=
  match e with
  | EPrintf Stdout fmt [AInt p; AInt n] =>
      if bool_decide (fmt = fmt_progress) && (p =? pid) then Some n else None
  | _ => None
  end.

Definition progress_counts (pid : Z) (t : list event) : list Z :=
  omap (progress_count pid) t.

(** A regular file read from its start in requests of [BLOCK_SIZE] bytes:
    each read finds the whole remaining content available, and the read
    at the end of the file delivers nothing. *)
Fixpoint remainders (fuel : nat) (content : list byte) : list (list byte) :=
  match fuel, content with
  | S fuel', _ :: _ =>
      content :: remainders fuel' (drop (Z.to_nat BLOCK_SIZE) content)
  | _, _ => []
  end.

Definition regular_file (content : list byte) : list response :=
  positive_reads (remainders (length content) content) ++ [RRead (ReadBytes [])].

Definition block_size (b : list byte) : Z :=
  Z.of_nat (length (take (Z.to_nat BLOCK_SIZE) b)).

(** ** Which calls a computation can make *)

(** [emits P m]: every call [m] makes, on any script, satisfies [P]. *)
Definition emits (P : event -> Prop) {A} (m : M A) : Prop :=
  forall st, Forall P (m st).1.

(** Calls a worker makes after it was forked: no [pipe], [fork] or
    [wait]. *)
Definition worker_event (e : event) : Prop :=
  match e with
  | EPipe _ _ | EFork _ | EWait _ _ => False
  | _ => True
  end.

(** Calls the parent makes after the second fork: no [pipe], [fork] or
    [open]. *)
Definition parent_event (e : event) : Prop :=
  match e with
  | EPipe _ _ | EFork _ | EOpen _ _ _ _ => False
  | _ => True
  end.

Definition not_pipe (e : event) : Prop :=
  match e with EPipe _ _ => False | _ => True end.

(** ** Descriptor tables *)

(** What an open descriptor refers to. *)
Inductive resource := PipeRead | PipeWrite | File (path : string).

(** Effect of one call on the descriptor table of the calling process.  A
    forked child starts with a copy of the table, which is the table of
    its own trace since that includes the calls made before the fork. *)
Definition fd_step (tbl : gmap Z resource) (e : event) : gmap Z resource :=
  match e with
  | EPipe ret (rd, wr) =>
      if ret =? 0 then <[wr := PipeWrite]> (<[rd := PipeRead]> tbl) else tbl
  | EOpen path _ _ ret =>
      if ret <? 0 then tbl else <[ret := File path]> tbl
  | EClose fd => delete fd tbl
  | _ => tbl
  end.

Definition fd_table (t : list event) : gmap Z resource := foldl fd_step ∅ t.

Definition holds (tbl : gmap Z resource) (r : resource) : Prop :=
  exists fd, tbl !! fd = Some r.

Definition pipe_end (r : resource) : Prop := r = PipeRead \/ r = PipeWrite.

(** ** Further observations *)

(** [returns P m]: whenever [m] finishes, its value satisfies [P]. *)
Definition returns {A} (P : A -> Prop) (m : M A) : Prop :=
  forall st t a st', m st = (t, Some (a, st')) -> P a.

(** The calls [copy src dest pid] can make: reads of [BLOCK_SIZE] bytes
    from [src], progress lines tagged [pid] and writes to [dest], the
    latter two with a count between 1 and [BLOCK_SIZE]. *)
Definition copy_event (src dest pid : Z) (e : event) : Prop :=
  match e with
  | ERead fd count ret d =>
      fd = src /\ count = BLOCK_SIZE /\
      (ret = -1 /\ d = [] \/ 0 <= ret <= BLOCK_SIZE /\ Z.of_nat (length d) = ret)
  | EPrintf out fmt args =>
      out = Stdout /\ fmt = fmt_progress /\
      exists n, args = [AInt pid; AInt n] /\ 0 < n <= BLOCK_SIZE
  | EWrite fd d => fd = dest /\ 0 < Z.of_nat (length d) <= BLOCK_SIZE
  | _ => False
  end.

(** The bytes a trace reads from, and hands to [write] for, a
    descriptor. *)
Definition bytes_read (fd : Z) (t : list event) : list byte :=
  flat_map (fun e => match e with
                     | ERead fd' _ _ d => if fd' =? fd then d else []
                     | _ => []
                     end) t.

Definition bytes_written (fd : Z) (t : list event) : list byte :=
  flat_map (fun e => match e with
                     | EWrite fd' d => if fd' =? fd then d else []
                     | _ => []
                     end) t.

(** Calls that leave the descriptor table alone. *)
Definition table_neutral (e : event) : Prop :=
  match e with
  | EPipe _ _ | EOpen _ _ _ _ | EClose _ => False
  | _ => True
  end.

(** The calls the parent makes once both children exist. *)
Definition supervisor_event (e : event) : Prop :=
  match e with
  | EClose _ | EWait _ _ | EPrintf Stdout _ _ => True
  | _ => False
  end.


Definition is_fork (e : event) : bool :=
  match e with EFork _ => true | _ => false end.

(** The line the parent prints for child [n] when that child returned
    [c] from [main]. *)
Definition exit_line (n c : Z) : event :=
  if c =? 0
  then EPrintf Stdout fmt_child_ok [AInt n]
  else EPrintf Stdout fmt_child_failed [AInt n; AInt c].

(** Lines printed with at least one argument; the pipe-failure,
    fork-failure and aggregate lines have none. *)
Definition not_bare_line (e : event) : Prop :=
  match e with
  | EPrintf _ _ [] => False
  | _ => True
  end.

(** [forks_at_most n m]: on any script [m] calls [fork] at most [n]
    times. *)
Definition forks_at_most (n : nat) {A} (m : M A) : Prop :=
  forall st, (length (List.filter is_fork (m st).1) <= n)%nat.

(** * Properties *)

#[global] Arguments WEXITSTATUS : simpl never.
#[global] Arguments to_int16 : simpl never.
#[global] Arguments BLOCK_SIZE : simpl never.
#[global] Arguments fmt_child_ok : simpl never.
#[global] Arguments copy : simpl never.

(** Case analysis on the integer tests of the program. *)
Ltac ztests :=
  repeat match goal with
  | |- context [?a >? ?b] => destruct (Z.gtb_spec a b); try lia
  | |- context [?a <? ?b] => destruct (Z.ltb_spec a b); try lia
  | |- context [?a =? ?b] => destruct (Z.eqb_spec a b); try lia
  end.

Ltac run_step :=
  unfold mbind, mret, M_bind, M_ret, pipe, fork, wait, open, close, printf,
    fprintf, strerror_errno, emit, answer; cbn.

Ltac run_main :=
  unfold exec, main, parent_code, child_1_code, child_2_code, error_code;
  repeat (run_step; ztests).

Ltac run_copy :=
  unfold mbind, mret, M_bind, M_ret, read, write, printf, emit, answer,
    sys_read, delivered; cbn [script errno].

(** ** Sample runs *)

(** Child 1 copying a file of three bytes into the pipe. *)
Example sample_child_1_run :
  exec (main ["PipeCopy"; "in"; "out"]%string)
       [RPipeOk 3 4; RFork 0; ROpen 3 0;
        RRead (ReadBytes [x61; x62; x63]); RRead (ReadBytes [])]
  = ([EPipe 0 (3, 4); EFork 0; EClose 3; EOpen "in" [O_RDONLY] [] 3;
      ERead 3 1024 3 [x61; x62; x63];
      EPrintf Stdout fmt_progress [AInt 1; AInt 3];
      EWrite 4 [x61; x62; x63];
      ERead 3 1024 0 []; EClose 3; EClose 4],
     Some 0).
Proof. vm_compute. reflexivity. Qed.

(** Child 2 receiving them in two reads and then end of stream. *)
Example sample_child_2_run :
  exec (main ["PipeCopy"; "in"; "out"]%string)
       [RPipeOk 3 4; RFork 7; RFork 0; ROpen 4 0;
        RRead (ReadBytes [x61; x62]); RRead (ReadBytes [x63]);
        RRead (ReadBytes [])]
  = ([EPipe 0 (3, 4); EFork 7; EFork 0; EClose 4;
      EOpen "out" [O_WRONLY; O_CREAT; O_TRUNC]
            [S_IRUSR; S_IWUSR; S_IRGRP; S_IWGRP; S_IROTH] 4;
      ERead 3 1024 2 [x61; x62];
      EPrintf Stdout fmt_progress [AInt 2; AInt 2];
      EWrite 4 [x61; x62];
      ERead 3 1024 1 [x63];
      EPrintf Stdout fmt_progress [AInt 2; AInt 1];
      EWrite 4 [x63];
      ERead 3 1024 0 []; EClose 4; EClose 3],
     Some 0).
Proof. vm_compute. reflexivity. Qed.

(** The parent reaping child 2 (exit status 0) before child 1 (exit
    status 1, wait status 256). *)
Example sample_parent_run :
  exec (main ["PipeCopy"; "in"; "out"]%string)
       [RPipeOk 3 4; RFork 7; RFork 8; RWait 8 0; RWait 7 256]
  = ([EPipe 0 (3, 4); EFork 7; EFork 8; EClose 3; EClose 4;
      EWait 8 0; EPrintf Stdout fmt_child_ok [AInt 2];
      EWait 7 256; EPrintf Stdout fmt_child_failed [AInt 1; AInt 1];
      EPrintf Stdout fmt_some_failed []],
     Some 2).
Proof. vm_compute. reflexivity. Qed.

(** A failing [pipe]: one line on the error stream, exit code 1. *)
Example sample_pipe_failure :
  exec (main ["PipeCopy"; "in"; "out"]%string) [RPipeFail 24]
  = ([EPipe (-1) (0, 0); EPrintf Stderr fmt_pipe_failed []], Some 1).
Proof. vm_compute. reflexivity. Qed.

(** ** The parent *)

Lemma fmt_all_ok_ne_some_failed : fmt_all_ok <> fmt_some_failed.
Proof. discriminate. Qed.

(** A process that returns [c] from [main] leaves the wait status
    [c * 256]; the parent recovers [c] from it. *)
Lemma WEXITSTATUS_exit_code (c : Z) :
  0 <= c < 256 -> WEXITSTATUS (c * 256) = c.
Proof.
  intros Hc. unfold WEXITSTATUS.
  replace (c * 256) with (Z.shiftl c 8) by (rewrite Z.shiftl_mul_pow2; lia).
  change 65280 with (Z.shiftl (Z.ones 8) 8).
  rewrite <- Z.shiftl_land, Z.shiftr_shiftl_l, Z.sub_diag, Z.shiftl_0_r by lia.
  rewrite Z.land_ones by lia. apply Z.mod_small. change (2 ^ 8) with 256. lia.
Qed.

(** C5: when the first fork succeeds and the second fails, the parent
    prints the fork-failure line and returns 1; it never calls [wait]. *)
Theorem second_spawn_failure_exits_without_wait
    (argv : list string) (rd wr p1 p2 : Z) (s : list response) :
  p1 > 0 -> p2 < 0 ->
  exec (main argv) (RPipeOk rd wr :: RFork p1 :: RFork p2 :: s)
  = ([EPipe 0 (rd, wr); EFork p1; EFork p2; EPrintf Stdout fmt_fork_failed []],
     Some 1)
  /\ List.filter is_wait
       (exec (main argv) (RPipeOk rd wr :: RFork p1 :: RFork p2 :: s)).1 = [].
Proof.
  intros H1 H2. run_main. split; reflexivity.
Qed.

Lemma second_spawn_failure_witness :
  exec (main ["PipeCopy"; "in"; "out"]%string) [RPipeOk 3 4; RFork 7; RFork (-1)]
  = ([EPipe 0 (3, 4); EFork 7; EFork (-1); EPrintf Stdout fmt_fork_failed []],
     Some 1).
Proof.
  apply (second_spawn_failure_exits_without_wait _ 3 4 7 (-1) []); lia.
Defined.

(** C6: a worker whose [open] fails prints the error line naming its file
    and the [strerror(errno)] reason, closes its pipe end and returns 1. *)
Theorem open_failure_closes_pipe_end_and_exits_1
    (argv : list string) (rd wr p1 ret e : Z) (s : list response) :
  ret < 0 -> p1 > 0 ->
  exec (main argv) (RPipeOk rd wr :: RFork 0 :: ROpen ret e :: s)
  = ([EPipe 0 (rd, wr); EFork 0; EClose rd;
      EOpen (argv_at argv 1) [O_RDONLY] [] ret;
      EPrintf Stdout fmt_open_src [AStr (argv_at argv 1); AStrerror e];
      EClose wr], Some 1)
  /\
  exec (main argv) (RPipeOk rd wr :: RFork p1 :: RFork 0 :: ROpen ret e :: s)
  = ([EPipe 0 (rd, wr); EFork p1; EFork 0; EClose wr;
      EOpen (argv_at argv 2) [O_WRONLY; O_CREAT; O_TRUNC]
            [S_IRUSR; S_IWUSR; S_IRGRP; S_IWGRP; S_IROTH] ret;
      EPrintf Stdout fmt_open_dest [AStr (argv_at argv 2); AStrerror e];
      EClose rd], Some 1).
Proof.
  intros Hret Hp1. split; run_main; reflexivity.
Qed.

Lemma open_failure_witness :
  exec (main ["PipeCopy"; "in"; "out"]%string) [RPipeOk 3 4; RFork 0; ROpen (-1) 2]
  = ([EPipe 0 (3, 4); EFork 0; EClose 3; EOpen "in" [O_RDONLY] [] (-1);
      EPrintf Stdout fmt_open_src [AStr "in"; AStrerror 2]; EClose 4], Some 1).
Proof.
  apply (open_failure_closes_pipe_end_and_exits_1
           ["PipeCopy"; "in"; "out"]%string 3 4 7 (-1) 2 []); lia.
Defined.

(** The run of the parent once both forks succeeded and two wait records
    arrive. *)
Lemma parent_run (argv : list string) (rd wr p1 p2 d1 s1 d2 s2 en : Z)
    (rest : list response) :
  p1 > 0 -> p2 > 0 ->
  let ok := (WEXITSTATUS s1 =? 0) && (WEXITSTATUS s2 =? 0) in
  main argv
    (Proc (RPipeOk rd wr :: RFork p1 :: RFork p2
           :: RWait d1 s1 :: RWait d2 s2 :: rest) en)
  = ([EPipe 0 (rd, wr); EFork p1; EFork p2; EClose rd; EClose wr;
      EWait d1 s1; child_line (if p1 =? d1 then 1 else 2) s1;
      EWait d2 s2; child_line (if p1 =? d2 then 1 else 2) s2;
      aggregate_line ok],
     Some (if ok then 0 else 2, Proc rest en)).
Proof.
  intros H1 H2 ok. subst ok. unfold child_line, aggregate_line.
  run_main; reflexivity.
Qed.

(** C2: with both forks successful and two wait records collected, the
    parent returns 0 when both exit statuses are 0 and 2 otherwise, and the
    aggregate line (the last line printed, and the only aggregate line) is
    the success line exactly when both exit statuses are 0. *)
Theorem supervisor_exit_code_and_aggregate_line
    (argv : list string) (rd wr p1 p2 d1 s1 d2 s2 : Z) (rest : list response) :
  p1 > 0 -> p2 > 0 ->
  let run := exec (main argv)
    (RPipeOk rd wr :: RFork p1 :: RFork p2 :: RWait d1 s1 :: RWait d2 s2 :: rest) in
  let both_ok := WEXITSTATUS s1 = 0 /\ WEXITSTATUS s2 = 0 in
  (both_ok -> run.2 = Some 0) /\
  (~ both_ok -> run.2 = Some 2) /\
  (last run.1 = Some (EPrintf Stdout fmt_all_ok []) <-> both_ok) /\
  (last run.1 = Some (EPrintf Stdout fmt_some_failed []) <-> ~ both_ok) /\
  (EPrintf Stdout fmt_all_ok [] ∈ run.1 <-> both_ok) /\
  (EPrintf Stdout fmt_some_failed [] ∈ run.1 <-> ~ both_ok).
Proof.
  intros H1 H2 run both_ok. subst run both_ok.
  pose proof fmt_all_ok_ne_some_failed as Hne.
  unfold exec. rewrite parent_run by assumption.
  unfold child_line, aggregate_line. cbn [fst snd fmap option_fmap option_map].
  destruct (Z.eqb_spec (WEXITSTATUS s1) 0) as [E1|E1];
    destruct (Z.eqb_spec (WEXITSTATUS s2) 0) as [E2|E2];
    cbn [andb last]; rewrite !elem_of_cons, !elem_of_nil;
    repeat split; try tauto; try congruence;
    intros; repeat match goal with
                   | H : _ \/ _ |- _ => destruct H
                   | H : _ /\ _ |- _ => destruct H
                   end; try tauto; try discriminate; try congruence; auto 10.
Qed.

Lemma supervisor_exit_code_witness :
  (exec (main ["PipeCopy"; "in"; "out"]%string)
     [RPipeOk 3 4; RFork 7; RFork 8; RWait 8 0; RWait 7 512]).2 = Some 2.
Proof.
  apply (supervisor_exit_code_and_aggregate_line
           ["PipeCopy"; "in"; "out"]%string 3 4 7 8 8 0 7 512 []); [lia | lia |].
  vm_compute. intros [_ H]. discriminate H.
Defined.

(** C9: the parent calls [wait] exactly twice, whatever else the kernel
    could still report, and the ordinal printed for a record is 1 exactly
    when the reaped pid is that of child 1: whether worker [p1] or worker
    [p2] is reaped first, [p1]'s record is reported as child 1 and [p2]'s
    as child 2, and the aggregate line and exit code are the same. *)
Theorem wait_records_attributed_by_pid
    (argv : list string) (rd wr p1 p2 s1 s2 : Z) (rest : list response) :
  p1 > 0 -> p2 > 0 -> p1 <> p2 ->
  let forks := [RPipeOk rd wr; RFork p1; RFork p2] in
  let pre := [EPipe 0 (rd, wr); EFork p1; EFork p2; EClose rd; EClose wr] in
  let ok := (WEXITSTATUS s1 =? 0) && (WEXITSTATUS s2 =? 0) in
  exec (main argv) (forks ++ RWait p1 s1 :: RWait p2 s2 :: rest)
  = (pre ++ [EWait p1 s1; child_line 1 s1; EWait p2 s2; child_line 2 s2;
             aggregate_line ok],
     Some (if ok then 0 else 2))
  /\
  exec (main argv) (forks ++ RWait p2 s2 :: RWait p1 s1 :: rest)
  = (pre ++ [EWait p2 s2; child_line 2 s2; EWait p1 s1; child_line 1 s1;
             aggregate_line ok],
     Some (if ok then 0 else 2))
  /\
  (forall d1 d2 : Z,
     List.filter is_wait
       (exec (main argv) (forks ++ RWait d1 s1 :: RWait d2 s2 :: rest)).1
     = [EWait d1 s1; EWait d2 s2]).
Proof.
  intros H1 H2 Hne forks pre ok. subst forks pre ok. unfold exec. cbn [app].
  rewrite !parent_run by assumption.
  rewrite Z.eqb_refl. destruct (Z.eqb_spec p1 p2) as [E|_]; [contradiction|].
  cbn [fmap option_fmap option_map fst].
  split; [reflexivity|]. split.
  - rewrite (andb_comm (WEXITSTATUS s2 =? 0)). reflexivity.
  - intros d1 d2. rewrite parent_run by assumption.
    unfold child_line, aggregate_line.
    destruct (WEXITSTATUS s1 =? 0), (WEXITSTATUS s2 =? 0); reflexivity.
Qed.

Lemma wait_records_witness :
  exec (main ["PipeCopy"; "in"; "out"]%string)
       ([RPipeOk 3 4; RFork 7; RFork 8] ++ [RWait 8 256; RWait 7 0])
  = ([EPipe 0 (3, 4); EFork 7; EFork 8; EClose 3; EClose 4]
       ++ [EWait 8 256; child_line 2 256; EWait 7 0; child_line 1 0;
           aggregate_line false],
     Some 2).
Proof.
  apply (wait_records_attributed_by_pid
           ["PipeCopy"; "in"; "out"]%string 3 4 7 8 0 256 []); lia.
Defined.

(** When the first fork fails, [child_2] keeps its initial value 0, so the
    test of the block for child 2 succeeds before the error-handling block
    is reached: the parent itself runs the code of child 2. *)
Lemma main_first_fork_failed
    (argv : list string) (rd wr ret en : Z) (s : list response) :
  ret < 0 ->
  main argv (Proc (RPipeOk rd wr :: RFork ret :: s) en)
  = (let '(t, r) := child_2_code (rd, wr) argv (Proc s en) in
     ([EPipe 0 (rd, wr); EFork ret] ++ t, r)).
Proof.
  intros Hret. unfold main. run_step. ztests. run_step.
  destruct (child_2_code _ _ _); reflexivity.
Qed.

(** C1 (the code departs from the claim): with the pipe created and the
    first [fork] returning -1, the parent closes the write end, opens the
    destination file, reads end of stream from the pipe and returns 0; no
    failure line is printed. *)
Theorem first_spawn_failure_runs_child_2_code :
  exec (main ["PipeCopy"; "in"; "out"]%string)
       [RPipeOk 3 4; RFork (-1); ROpen 4 0; RRead (ReadBytes [])]
  = ([EPipe 0 (3, 4); EFork (-1); EClose 4;
      EOpen "out" [O_WRONLY; O_CREAT; O_TRUNC]
            [S_IRUSR; S_IWUSR; S_IRGRP; S_IWGRP; S_IROTH] 4;
      ERead 3 BLOCK_SIZE 0 []; EClose 4; EClose 3],
     Some 0).
Proof. vm_compute. reflexivity. Qed.

(** ** The copy loop *)

Lemma to_int16_small (z : Z) : -32768 <= z < 32768 -> to_int16 z = z.
Proof.
  intros H. unfold to_int16.
  destruct (Z.ltb_spec (z mod 65536) 32768) as [Hlt|Hge].
  - destruct (Z.le_gt_cases 0 z) as [Hz|Hz].
    + apply Z.mod_small. lia.
    + assert (E : z mod 65536 = z + 65536).
      { symmetry. apply (Z.mod_unique z 65536 (-1)); lia. }
      lia.
  - destruct (Z.le_gt_cases 0 z) as [Hz|Hz].
    + rewrite Z.mod_small in Hge; lia.
    + assert (E : z mod 65536 = z + 65536).
      { symmetry. apply (Z.mod_unique z 65536 (-1)); lia. }
      lia.
Qed.

Lemma take_block_length (avail : list byte) :
  0 <= Z.of_nat (length (take (Z.to_nat BLOCK_SIZE) avail)) <= BLOCK_SIZE.
Proof.
  rewrite length_take. unfold BLOCK_SIZE. lia.
Qed.

Lemma take_block_nonempty (avail : list byte) :
  avail <> [] -> 0 < Z.of_nat (length (take (Z.to_nat BLOCK_SIZE) avail)).
Proof.
  intros H. rewrite length_take. destruct avail; [contradiction|].
  cbn [length]. unfold BLOCK_SIZE. lia.
Qed.

(** Every script is a run of positive reads followed by something that is
    not a positive read. *)
Lemma script_split (s : list response) :
  exists blocks tail,
    s = positive_reads blocks ++ tail /\
    Forall (fun b => b <> []) blocks /\
    match tail with
    | RRead (ReadBytes (_ :: _)) :: _ => False
    | _ => True
    end.
Proof.
  induction s as [|r s (blocks & tail & -> & Hne & Htail)].
  - by exists [], [].
  - destruct r as [| | | | |[e|[|b avail]]];
      try (eexists [], _; split; [reflexivity|]; split; [constructor|exact I]).
    exists ((b :: avail) :: blocks), tail. split; [done|]. split; [|done].
    by constructor.
Qed.

Section CopyLoop.

Variables src dest pid : Z.

(** One iteration, by the answer to its read. *)
Lemma copy_loop_eof (fuel : nat) (en : Z) (buf : list byte) (s : list response) :
  copy_loop (S fuel) src dest pid buf (Proc (RRead (ReadBytes []) :: s) en)
  = ([ERead src BLOCK_SIZE 0 []], Some (0, Proc s en)).
Proof.
  cbn [copy_loop]. run_copy. rewrite take_nil. reflexivity.
Qed.

Lemma copy_loop_fail (fuel : nat) (en e : Z) (buf : list byte) (s : list response) :
  copy_loop (S fuel) src dest pid buf (Proc (RRead (ReadFail e) :: s) en)
  = ([ERead src BLOCK_SIZE (-1) []], Some (-1, Proc s e)).
Proof.
  cbn [copy_loop]. run_copy. reflexivity.
Qed.

Lemma copy_loop_block (fuel : nat) (en : Z) (buf avail : list byte)
    (s : list response) :
  avail <> [] ->
  copy_loop (S fuel) src dest pid buf (Proc (RRead (ReadBytes avail) :: s) en)
  = (let d := take (Z.to_nat BLOCK_SIZE) avail in
     let '(t, r) := copy_loop fuel src dest pid (d ++ drop (length d) buf) (Proc s en) in
     (block_events src dest pid avail ++ t, r)).
Proof.
  intros Hne. cbn [copy_loop]. run_copy.
  pose proof (take_block_length avail) as Hlen.
  pose proof (take_block_nonempty avail Hne) as Hpos.
  rewrite to_int16_small by (unfold BLOCK_SIZE in *; lia).
  destruct (Z.gtb_spec (Z.of_nat (length (take (Z.to_nat BLOCK_SIZE) avail))) 0);
    [|lia].
  rewrite Nat2Z.id, take_app_length.
  cbn zeta. destruct (copy_loop fuel _ _ _ _ _) as [t r]. reflexivity.
Qed.

(** What the loop does on a script that does not start with a positive
    read depends neither on the fuel left nor on the buffer. *)
Lemma copy_loop_tail (en : Z) (tail : list response) :
  match tail with
  | RRead (ReadBytes (_ :: _)) :: _ => False
  | _ => True
  end ->
  exists res, forall fuel buf,
    copy_loop (S fuel) src dest pid buf (Proc tail en) = res.
Proof.
  intros Htail. destruct tail as [|r rest]; [by exists ([], None)|].
  destruct r as [| | | | |[e|[|b avail]]]; try by exists ([], None).
  - eexists. intros fuel buf. apply copy_loop_fail.
  - eexists. intros fuel buf. apply copy_loop_eof.
Qed.

(** A run of positive reads, whatever follows it. *)
Lemma copy_loop_blocks (en : Z) (blocks : list (list byte))
    (tail : list response) (res : list event * option (Z * proc)) :
  Forall (fun b => b <> []) blocks ->
  (forall fuel buf, copy_loop (S fuel) src dest pid buf (Proc tail en) = res) ->
  forall fuel buf, (length blocks < fuel)%nat ->
  copy_loop fuel src dest pid buf (Proc (positive_reads blocks ++ tail) en)
  = (flat_map (block_events src dest pid) blocks ++ res.1, res.2).
Proof.
  intros Hne Htail. induction Hne as [|b blocks Hb _ IH]; intros fuel buf Hfuel.
  - destruct fuel as [|fuel]; [cbn in Hfuel; lia|].
    cbn [positive_reads map app flat_map]. rewrite Htail. by destruct res.
  - destruct fuel as [|fuel]; [cbn in Hfuel; lia|].
    cbn [positive_reads map app flat_map].
    rewrite copy_loop_block by assumption. cbn zeta.
    fold (positive_reads blocks). rewrite IH by (cbn [length] in Hfuel; lia).
    by rewrite <- app_assoc.
Qed.

(** The fuel [copy] starts the loop with is enough for any script, and
    the initial contents of the buffer are irrelevant. *)
Lemma copy_loop_enough_fuel (fuel : nat) (buf : list byte) (st : proc) :
  (length (script st) < fuel)%nat ->
  copy_loop fuel src dest pid buf st = copy src dest pid st.
Proof.
  destruct st as [s en]. cbn [script]. intros Hfuel.
  destruct (script_split s) as (blocks & tail & -> & Hne & Htail).
  destruct (copy_loop_tail en tail Htail) as [res Hres].
  assert (Hlen : (length blocks < length (positive_reads blocks ++ tail) + 1)%nat).
  { rewrite length_app. unfold positive_reads. rewrite length_map. lia. }
  unfold copy. cbn [script].
  rewrite !(copy_loop_blocks en blocks tail res Hne Hres) by lia.
  reflexivity.
Qed.

Lemma copy_run (en : Z) (blocks : list (list byte))
    (tail : list response) (res : list event * option (Z * proc)) :
  Forall (fun b => b <> []) blocks ->
  (forall fuel buf, copy_loop (S fuel) src dest pid buf (Proc tail en) = res) ->
  copy src dest pid (Proc (positive_reads blocks ++ tail) en)
  = (flat_map (block_events src dest pid) blocks ++ res.1, res.2).
Proof.
  intros Hne Htail. unfold copy. cbn [script].
  apply copy_loop_blocks; [assumption..|].
  rewrite length_app. unfold positive_reads. rewrite length_map. lia.
Qed.

Lemma copy_run_eof (en : Z) (blocks : list (list byte)) (rest : list response) :
  Forall (fun b => b <> []) blocks ->
  copy src dest pid (Proc (positive_reads blocks ++ RRead (ReadBytes []) :: rest) en)
  = (flat_map (block_events src dest pid) blocks ++ [ERead src BLOCK_SIZE 0 []],
     Some (0, Proc rest en)).
Proof.
  intros Hne.
  apply (copy_run _ _ _ ([ERead src BLOCK_SIZE 0 []], Some (0, Proc rest en)) Hne).
  intros fuel buf. apply copy_loop_eof.
Qed.

Lemma copy_run_fail (en e : Z) (blocks : list (list byte)) (rest : list response) :
  Forall (fun b => b <> []) blocks ->
  copy src dest pid (Proc (positive_reads blocks ++ RRead (ReadFail e) :: rest) en)
  = (flat_map (block_events src dest pid) blocks ++ [ERead src BLOCK_SIZE (-1) []],
     Some (-1, Proc rest e)).
Proof.
  intros Hne.
  apply (copy_run _ _ _ ([ERead src BLOCK_SIZE (-1) []], Some (-1, Proc rest e)) Hne).
  intros fuel buf. apply copy_loop_fail.
Qed.

Lemma copy_run_stuck (en : Z) (blocks : list (list byte)) (tail : list response) :
  Forall (fun b => b <> []) blocks ->
  (forall fuel buf,
     copy_loop (S fuel) src dest pid buf (Proc tail en) = ([], None)) ->
  copy src dest pid (Proc (positive_reads blocks ++ tail) en)
  = (flat_map (block_events src dest pid) blocks, None).
Proof.
  intros Hne Htail. rewrite (copy_run _ _ _ ([], None) Hne Htail).
  cbn [fst snd]. by rewrite app_nil_r.
Qed.

(** C3: after any number of positive reads, [copy] stops with 0 at the
    first read of zero bytes, stops with the negative value -1 at the first
    failing read, the failing read being the last call it makes (no write
    follows it), and has not stopped while every read so far was
    positive. *)
Theorem copy_stops_at_first_nonpositive_read
    (en : Z) (blocks : list (list byte)) (rest : list response) :
  Forall (fun b => b <> []) blocks ->
  copy src dest pid (Proc (positive_reads blocks ++ RRead (ReadBytes []) :: rest) en)
  = (flat_map (block_events src dest pid) blocks ++ [ERead src BLOCK_SIZE 0 []],
     Some (0, Proc rest en))
  /\
  (forall e : Z,
     copy src dest pid (Proc (positive_reads blocks ++ RRead (ReadFail e) :: rest) en)
     = (flat_map (block_events src dest pid) blocks ++ [ERead src BLOCK_SIZE (-1) []],
        Some (-1, Proc rest e)))
  /\
  copy src dest pid (Proc (positive_reads blocks) en)
  = (flat_map (block_events src dest pid) blocks, None).
Proof.
  intros Hne. split; [|split].
  - by apply copy_run_eof.
  - intros e. by apply copy_run_fail.
  - rewrite <- (app_nil_r (positive_reads blocks)).
    by apply copy_run_stuck.
Qed.

(** The three ways a call of [copy] can go: it returns 0 at end of stream,
    it returns -1 at a failing read, or it has not returned because the
    script ends or continues with an answer to another call. *)
Lemma copy_cases (st : proc) :
  exists blocks,
    Forall (fun b => b <> []) blocks /\
    let tr := flat_map (block_events src dest pid) blocks in
    (exists rest,
        script st = positive_reads blocks ++ RRead (ReadBytes []) :: rest /\
        copy src dest pid st
        = (tr ++ [ERead src BLOCK_SIZE 0 []], Some (0, Proc rest (errno st))))
    \/ (exists e rest,
        script st = positive_reads blocks ++ RRead (ReadFail e) :: rest /\
        copy src dest pid st
        = (tr ++ [ERead src BLOCK_SIZE (-1) []], Some (-1, Proc rest e)))
    \/ (exists tail,
        script st = positive_reads blocks ++ tail /\
        match tail with RRead _ :: _ => False | _ => True end /\
        copy src dest pid st = (tr, None)).
Proof.
  destruct st as [s en].
  destruct (script_split s) as (blocks & tail & -> & Hne & Htail).
  exists blocks. split; [assumption|]. cbn [script errno].
  destruct tail as [|r rest].
  - right. right. exists []. split; [done|]. split; [done|].
    by apply copy_run_stuck.
  - destruct r as [| | | | |[e|[|b avail]]];
      try (right; right; eexists (_ :: rest); split; [reflexivity|];
           split; [exact I|]; by apply copy_run_stuck).
    + right. left. exists e, rest. split; [done|]. by apply copy_run_fail.
    + left. exists rest. split; [done|]. by apply copy_run_eof.
    + contradiction.
Qed.

End CopyLoop.

Lemma copy_stops_witness :
  copy 5 4 1 (Proc (positive_reads [[x41; x42]; [x43]] ++ [RRead (ReadFail 5)]) 0)
  = (flat_map (block_events 5 4 1) [[x41; x42]; [x43]] ++ [ERead 5 BLOCK_SIZE (-1) []],
     Some (-1, Proc [] 5)).
Proof.
  apply (copy_stops_at_first_nonpositive_read 5 4 1 0 [[x41; x42]; [x43]] []).
  repeat constructor; discriminate.
Defined.

(** ** The three roles of [main] *)

Lemma main_child_1 (argv : list string) (rd wr en : Z) (s : list response) :
  main argv (Proc (RPipeOk rd wr :: RFork 0 :: s) en)
  = (let '(t, r) := child_1_code (rd, wr) argv (Proc s en) in
     ([EPipe 0 (rd, wr); EFork 0] ++ t, r)).
Proof.
  unfold main. run_step. destruct (child_1_code _ _ _); reflexivity.
Qed.

Lemma main_child_2 (argv : list string) (rd wr p1 en : Z) (s : list response) :
  p1 > 0 ->
  main argv (Proc (RPipeOk rd wr :: RFork p1 :: RFork 0 :: s) en)
  = (let '(t, r) := child_2_code (rd, wr) argv (Proc s en) in
     ([EPipe 0 (rd, wr); EFork p1; EFork 0] ++ t, r)).
Proof.
  intros H1. unfold main. run_step. ztests. run_step. ztests.
  destruct (child_2_code _ _ _); reflexivity.
Qed.

Lemma main_parent (argv : list string) (rd wr p1 p2 en : Z) (s : list response) :
  p1 > 0 -> p2 > 0 ->
  main argv (Proc (RPipeOk rd wr :: RFork p1 :: RFork p2 :: s) en)
  = (let '(t, r) := parent_code (rd, wr) p1 (Proc s en) in
     ([EPipe 0 (rd, wr); EFork p1; EFork p2] ++ t, r)).
Proof.
  intros H1 H2. unfold main. run_step. ztests. run_step. ztests.
  destruct (parent_code _ _ _); reflexivity.
Qed.

Lemma child_1_code_copy (argv : list string) (rd wr src e en : Z) (s : list response) :
  0 <= src ->
  child_1_code (rd, wr) argv (Proc (ROpen src e :: s) en)
  = (let '(tc, rc) := copy src wr 1 (Proc s en) in
     match rc with
     | None => ([EClose rd; EOpen (argv_at argv 1) [O_RDONLY] [] src] ++ tc, None)
     | Some (r, st') =>
         ([EClose rd; EOpen (argv_at argv 1) [O_RDONLY] [] src]
            ++ tc ++ closing r src wr (errno st'),
          Some (if r <? 0 then 2 else 0, st'))
     end).
Proof.
  intros Hsrc. unfold child_1_code, closing. run_step. ztests.
  destruct (copy _ _ _ _) as [tc [[r st']|]]; [|reflexivity].
  destruct (Z.ltb_spec r 0); run_step; reflexivity.
Qed.

Lemma child_2_code_copy (argv : list string) (rd wr dest e en : Z) (s : list response) :
  0 <= dest ->
  child_2_code (rd, wr) argv (Proc (ROpen dest e :: s) en)
  = (let '(tc, rc) := copy rd dest 2 (Proc s en) in
     let opening :=
       [EClose wr;
        EOpen (argv_at argv 2) [O_WRONLY; O_CREAT; O_TRUNC]
              [S_IRUSR; S_IWUSR; S_IRGRP; S_IWGRP; S_IROTH] dest] in
     match rc with
     | None => (opening ++ tc, None)
     | Some (r, st') =>
         (opening ++ tc ++ closing r dest rd (errno st'),
          Some (if r <? 0 then 2 else 0, st'))
     end).
Proof.
  intros Hdest. unfold child_2_code, closing. run_step. ztests.
  destruct (copy _ _ _ _) as [tc [[r st']|]]; [|reflexivity].
  destruct (Z.ltb_spec r 0); run_step; reflexivity.
Qed.

(** C7: once its file is open, a worker whose [copy] returns a negative
    value prints the copy-error line, closes its file and its pipe end and
    returns 2; when [copy] returns a non-negative value it closes both and
    returns 0.  First the reader (child 1), then the writer (child 2). *)
Theorem worker_exit_code_after_copy
    (argv : list string) (rd wr p1 file e en r : Z) (s : list response)
    (tc : list event) (st' : proc) :
  0 <= file -> p1 > 0 ->
  (copy file wr 1 (Proc s en) = (tc, Some (r, st')) ->
   main argv (Proc (RPipeOk rd wr :: RFork 0 :: ROpen file e :: s) en)
   = ([EPipe 0 (rd, wr); EFork 0; EClose rd;
       EOpen (argv_at argv 1) [O_RDONLY] [] file]
        ++ tc
        ++ (if r <? 0
            then [EPrintf Stdout fmt_copy_error [AStrerror (errno st')];
                  EClose file; EClose wr]
            else [EClose file; EClose wr]),
      Some (if r <? 0 then 2 else 0, st')))
  /\
  (copy rd file 2 (Proc s en) = (tc, Some (r, st')) ->
   main argv (Proc (RPipeOk rd wr :: RFork p1 :: RFork 0 :: ROpen file e :: s) en)
   = ([EPipe 0 (rd, wr); EFork p1; EFork 0; EClose wr;
       EOpen (argv_at argv 2) [O_WRONLY; O_CREAT; O_TRUNC]
             [S_IRUSR; S_IWUSR; S_IRGRP; S_IWGRP; S_IROTH] file]
        ++ tc
        ++ (if r <? 0
            then [EPrintf Stdout fmt_copy_error [AStrerror (errno st')];
                  EClose file; EClose rd]
            else [EClose file; EClose rd]),
      Some (if r <? 0 then 2 else 0, st'))).
Proof.
  intros Hfile Hp1. split; intros Hcopy.
  - rewrite main_child_1, child_1_code_copy, Hcopy by assumption. reflexivity.
  - rewrite main_child_2, child_2_code_copy, Hcopy by assumption. reflexivity.
Qed.

Lemma worker_exit_code_witness :
  main ["PipeCopy"; "in"; "out"]%string
       (Proc [RPipeOk 3 4; RFork 0; ROpen 3 0; RRead (ReadBytes [x41]); RRead (ReadFail 5)] 0)
  = ([EPipe 0 (3, 4); EFork 0; EClose 3; EOpen "in" [O_RDONLY] [] 3]
       ++ (block_events 3 4 1 [x41] ++ [ERead 3 BLOCK_SIZE (-1) []])
       ++ [EPrintf Stdout fmt_copy_error [AStrerror 5]; EClose 3; EClose 4],
     Some (2, Proc [] 5)).
Proof.
  apply (proj1 (worker_exit_code_after_copy
                  ["PipeCopy"; "in"; "out"]%string 3 4 7 3 0 0 (-1)
                  [RRead (ReadBytes [x41]); RRead (ReadFail 5)]
                  (block_events 3 4 1 [x41] ++ [ERead 3 BLOCK_SIZE (-1) []])
                  (Proc [] 5) ltac:(lia) ltac:(lia))).
  vm_compute. reflexivity.
Defined.

Lemma copy_returns (src dest pid : Z) (st st' : proc) (t : list event) (r : Z) :
  copy src dest pid st = (t, Some (r, st')) ->
  (exists t0, t = t0 ++ [ERead src BLOCK_SIZE r []]) /\ (r = 0 \/ r = -1).
Proof.
  intros Hcopy.
  destruct (copy_cases src dest pid st)
    as (blocks & _ & [(rest & _ & H) | [(e & rest & _ & H) | (tail & _ & _ & H)]]);
    rewrite H in Hcopy; [| |discriminate];
    injection Hcopy as <- <- <-; (split; [by eexists|lia]).
Qed.

Lemma closing_no_read (r file pipe_end en : Z) :
  List.filter is_read (closing r file pipe_end en) = [].
Proof. unfold closing. by destruct (r <? 0). Qed.

(** C10: whenever [copy] returns, its value is the return value of the read
    that ended the loop, which is 0 (end of stream) or -1 (read error) and
    never a block size; a worker whose file is open returns 0 exactly when
    that last read returned 0, and 2 exactly when it failed. *)
Theorem copy_returns_terminal_read_result :
  (forall (src dest pid : Z) (st st' : proc) (t : list event) (r : Z),
     copy src dest pid st = (t, Some (r, st')) ->
     (exists t0, t = t0 ++ [ERead src BLOCK_SIZE r []]) /\ (r = 0 \/ r = -1))
  /\
  (forall (argv : list string) (rd wr file e en c : Z) (s : list response)
          (t : list event) (st' : proc),
     0 <= file ->
     main argv (Proc (RPipeOk rd wr :: RFork 0 :: ROpen file e :: s) en)
     = (t, Some (c, st')) ->
     exists t0 r tl,
       t = t0 ++ ERead file BLOCK_SIZE r [] :: tl /\
       List.filter is_read tl = [] /\
       (c = 0 <-> r = 0) /\ (c = 2 <-> r = -1))
  /\
  (forall (argv : list string) (rd wr p1 file e en c : Z) (s : list response)
          (t : list event) (st' : proc),
     0 <= file -> p1 > 0 ->
     main argv (Proc (RPipeOk rd wr :: RFork p1 :: RFork 0 :: ROpen file e :: s) en)
     = (t, Some (c, st')) ->
     exists t0 r tl,
       t = t0 ++ ERead rd BLOCK_SIZE r [] :: tl /\
       List.filter is_read tl = [] /\
       (c = 0 <-> r = 0) /\ (c = 2 <-> r = -1)).
Proof.
  split; [exact copy_returns|]. split.
  - intros argv rd wr file e en c s t st' Hfile Hmain.
    rewrite main_child_1, child_1_code_copy in Hmain by assumption.
    destruct (copy file wr 1 _) as [tc [[r st'']|]] eqn:Hcopy; [|discriminate].
    injection Hmain as <- <- <-.
    destruct (copy_returns _ _ _ _ _ _ _ Hcopy) as [[t0 ->] Hr].
    exists ([EPipe 0 (rd, wr); EFork 0; EClose rd;
             EOpen (argv_at argv 1) [O_RDONLY] [] file] ++ t0),
           r, (closing r file wr (errno st'')).
    split; [by rewrite <- !app_assoc|].
    split; [apply closing_no_read|].
    destruct Hr as [-> | ->]; cbn; lia.
  - intros argv rd wr p1 file e en c s t st' Hfile Hp1 Hmain.
    rewrite main_child_2, child_2_code_copy in Hmain by assumption.
    cbn zeta in Hmain.
    destruct (copy rd file 2 _) as [tc [[r st'']|]] eqn:Hcopy; [|discriminate].
    injection Hmain as <- <- <-.
    destruct (copy_returns _ _ _ _ _ _ _ Hcopy) as [[t0 ->] Hr].
    exists ([EPipe 0 (rd, wr); EFork p1; EFork 0; EClose wr;
             EOpen (argv_at argv 2) [O_WRONLY; O_CREAT; O_TRUNC]
                   [S_IRUSR; S_IWUSR; S_IRGRP; S_IWGRP; S_IROTH] file] ++ t0),
           r, (closing r file rd (errno st'')).
    split; [by rewrite <- !app_assoc|].
    split; [apply closing_no_read|].
    destruct Hr as [-> | ->]; cbn; lia.
Qed.

Lemma copy_returns_witness :
  (exists t0,
      flat_map (block_events 3 4 1) [[x41; x42]] ++ [ERead 3 BLOCK_SIZE 0 []]
      = t0 ++ [ERead 3 BLOCK_SIZE 0 []])
  /\ (0 = 0 \/ 0 = -1).
Proof.
  apply (proj1 copy_returns_terminal_read_result 3 4 1
           (Proc [RRead (ReadBytes [x41; x42]); RRead (ReadBytes [])] 0)
           (Proc [] 0)).
  vm_compute. reflexivity.
Defined.

(** ** Which calls a computation can make *)

Lemma emits_ret (P : event -> Prop) {A} (a : A) : emits P (mret a).
Proof. intros st. constructor. Qed.

Lemma emits_bind (P : event -> Prop) {A B} (m : M A) (k : A -> M B) :
  emits P m -> (forall a, emits P (k a)) -> emits P (m ≫= k).
Proof.
  intros Hm Hk st. unfold mbind, M_bind. specialize (Hm st).
  destruct (m st) as [t1 [[a st1]|]]; cbn [fst] in *; [|assumption].
  specialize (Hk a st1). destruct (k a st1) as [t2 r]; cbn [fst] in *.
  by apply Forall_app.
Qed.

Lemma emits_emit (P : event -> Prop) (e : event) : P e -> emits P (emit e).
Proof. intros He st. by repeat constructor. Qed.

Lemma emits_answer (P : event -> Prop) {A}
    (f : response -> Z -> option (event * A * Z)) :
  (forall r en e a en', f r en = Some (e, a, en') -> P e) ->
  emits P (answer f).
Proof.
  intros Hf [s en]. unfold answer. cbn [script errno].
  destruct s as [|r rest]; [constructor|].
  destruct (f r en) as [[[e a] en']|] eqn:E; cbn [fst]; [|constructor].
  repeat constructor. eauto.
Qed.

Lemma emits_copy_loop (fuel : nat) (src dest pid : Z) (buf : list byte) :
  emits worker_event (copy_loop fuel src dest pid buf).
Proof.
  revert buf. induction fuel as [|fuel IH]; intros buf.
  - intros st. constructor.
  - cbn [copy_loop]. apply emits_bind.
    + apply emits_answer. intros r en ev a en' H.
      destruct r; try discriminate.
      destruct (sys_read _ _ _). by injection H as <- _ _.
    + intros [ret buf']. destruct (to_int16 ret >? 0).
      * apply emits_bind; [by apply emits_emit|]. intros _.
        apply emits_bind; [by apply emits_emit|]. intros _. apply IH.
      * apply emits_ret.
Qed.

Lemma emits_copy (src dest pid : Z) : emits worker_event (copy src dest pid).
Proof. intros st. apply emits_copy_loop. Qed.

Ltac emits_tac :=
  repeat first
    [ apply emits_ret
    | apply emits_copy
    | apply emits_emit; exact I
    | apply emits_bind; [|intros ?]
    | match goal with |- emits _ (if ?b then _ else _) => destruct b end ].

Lemma emits_open (P : event -> Prop) path flags mode :
  (forall ret, P (EOpen path flags mode ret)) -> emits P (open path flags mode).
Proof.
  intros H. apply emits_answer. intros r en ev a en' E.
  destruct r; try discriminate. by injection E as <- _ _.
Qed.

Lemma emits_child_1_code (fd : Z * Z) (argv : list string) :
  emits worker_event (child_1_code fd argv).
Proof.
  unfold child_1_code, close, printf, strerror_errno.
  apply emits_bind; [by apply emits_emit|]. intros _.
  apply emits_bind; [by apply emits_open|]. intros src.
  destruct (src <? 0).
  - apply emits_bind; [intros st; constructor|]. intros reason. emits_tac.
  - emits_tac. intros st; constructor.
Qed.

Lemma emits_child_2_code (fd : Z * Z) (argv : list string) :
  emits worker_event (child_2_code fd argv).
Proof.
  unfold child_2_code, close, printf, strerror_errno.
  apply emits_bind; [by apply emits_emit|]. intros _.
  apply emits_bind; [by apply emits_open|]. intros dest.
  destruct (dest <? 0).
  - apply emits_bind; [intros st; constructor|]. intros reason. emits_tac.
  - emits_tac. intros st; constructor.
Qed.

Lemma emits_wait_loop (n : nat) (child_1 : Z) (error : bool) :
  emits parent_event (wait_loop n child_1 error).
Proof.
  revert error. induction n as [|n IH]; intros error; cbn [wait_loop].
  - apply emits_ret.
  - apply emits_bind.
    + apply emits_answer. intros r en ev a en' H.
      destruct r; try discriminate. by injection H as <- _ _.
    + intros [done status]. unfold printf.
      destruct (WEXITSTATUS status =? 0);
        (apply emits_bind; [by apply emits_emit|]); intros _; apply IH.
Qed.

Lemma emits_parent_code (fd : Z * Z) (child_1 : Z) :
  emits parent_event (parent_code fd child_1).
Proof.
  unfold parent_code, close, printf.
  apply emits_bind; [by apply emits_emit|]. intros _.
  apply emits_bind; [by apply emits_emit|]. intros _.
  apply emits_bind; [apply emits_wait_loop|]. intros error.
  destruct error; cbn [negb]; emits_tac.
Qed.

(** ** Pipe ends held by each process *)

Lemma not_holds_step (tbl : gmap Z resource) (e : event) (r : resource) :
  pipe_end r -> not_pipe e -> ~ holds tbl r -> ~ holds (fd_step tbl e) r.
Proof.
  intros Hr He Hno [fd Hfd]. apply Hno. destruct e; cbn in *; try by exists fd.
  - destruct (ret <? 0); [by exists fd|].
    destruct (decide (ret = fd)) as [->|Hne].
    + rewrite lookup_insert_eq in Hfd. injection Hfd as <-.
      destruct Hr; discriminate.
    + rewrite lookup_insert_ne in Hfd by assumption. by exists fd.
  - destruct (decide (fd0 = fd)) as [->|Hne].
    + by rewrite lookup_delete_eq in Hfd.
    + rewrite lookup_delete_ne in Hfd by assumption. by exists fd.
Qed.

Lemma not_holds_foldl (t : list event) (tbl : gmap Z resource) (r : resource) :
  pipe_end r -> Forall not_pipe t -> ~ holds tbl r ->
  ~ holds (foldl fd_step tbl t) r.
Proof.
  intros Hr Ht. revert tbl. induction Ht as [|e t He _ IH]; intros tbl Hno.
  - assumption.
  - cbn [foldl]. apply IH. by apply not_holds_step.
Qed.

Lemma worker_event_not_pipe (e : event) : worker_event e -> not_pipe e.
Proof. by destruct e. Qed.

Lemma parent_event_not_pipe (e : event) : parent_event e -> not_pipe e.
Proof. by destruct e. Qed.

(** Once a pipe end is not held after some calls [pre], it is not held
    at any later point as long as no new pipe is created. *)
Lemma not_held_later (pre t : list event) (r : resource) (k : nat) :
  pipe_end r -> Forall not_pipe t -> ~ holds (fd_table pre) r ->
  (length pre <= k)%nat ->
  ~ holds (fd_table (take k (pre ++ t))) r.
Proof.
  intros Hr Ht Hpre Hk. rewrite take_app_ge by assumption.
  unfold fd_table. rewrite foldl_app.
  apply not_holds_foldl; [assumption| |assumption].
  by apply Forall_take.
Qed.

Lemma emit_bind_trace {B} (e : event) (k : unit -> M B) (st : proc) :
  ((emit e ≫= k) st).1 = e :: (k tt st).1.
Proof. unfold mbind, M_bind, emit. by destruct (k tt st). Qed.

Lemma exec_trace (p : M Z) (s : list response) :
  (exec p s).1 = (p (Proc s 0)).1.
Proof. unfold exec. by destruct (p _). Qed.

Lemma reader_trace (argv : list string) (rd wr : Z) (s : list response) :
  exists t',
    (exec (main argv) (RPipeOk rd wr :: RFork 0 :: s)).1
    = [EPipe 0 (rd, wr); EFork 0; EClose rd] ++ t'
    /\ Forall not_pipe t'.
Proof.
  rewrite exec_trace, main_child_1.
  pose proof (emits_child_1_code (rd, wr) argv (Proc s 0)) as Hall.
  destruct (child_1_code _ _ _) as [t r] eqn:E.
  assert (Hhead : t = (child_1_code (rd, wr) argv (Proc s 0)).1) by by rewrite E.
  unfold child_1_code, close in Hhead. rewrite emit_bind_trace in Hhead.
  cbn [fst] in *. subst t. apply Forall_cons in Hall as [_ Hall].
  eexists. split; [reflexivity|].
  eapply Forall_impl; [exact Hall|]. apply worker_event_not_pipe.
Qed.

Lemma writer_trace (argv : list string) (rd wr p1 : Z) (s : list response) :
  p1 > 0 ->
  exists t',
    (exec (main argv) (RPipeOk rd wr :: RFork p1 :: RFork 0 :: s)).1
    = [EPipe 0 (rd, wr); EFork p1; EFork 0; EClose wr] ++ t'
    /\ Forall not_pipe t'.
Proof.
  intros H1. rewrite exec_trace, main_child_2 by assumption.
  pose proof (emits_child_2_code (rd, wr) argv (Proc s 0)) as Hall.
  destruct (child_2_code _ _ _) as [t r] eqn:E.
  assert (Hhead : t = (child_2_code (rd, wr) argv (Proc s 0)).1) by by rewrite E.
  unfold child_2_code, close in Hhead. rewrite emit_bind_trace in Hhead.
  cbn [fst] in *. subst t. apply Forall_cons in Hall as [_ Hall].
  eexists. split; [reflexivity|].
  eapply Forall_impl; [exact Hall|]. apply worker_event_not_pipe.
Qed.

Lemma parent_trace (argv : list string) (rd wr p1 p2 : Z) (s : list response) :
  p1 > 0 -> p2 > 0 ->
  exists t',
    (exec (main argv) (RPipeOk rd wr :: RFork p1 :: RFork p2 :: s)).1
    = [EPipe 0 (rd, wr); EFork p1; EFork p2; EClose rd; EClose wr] ++ t'
    /\ Forall parent_event t'.
Proof.
  intros H1 H2. rewrite exec_trace, main_parent by assumption.
  pose proof (emits_parent_code (rd, wr) p1 (Proc s 0)) as Hall.
  destruct (parent_code _ _ _) as [t r] eqn:E.
  assert (Hhead : t = (parent_code (rd, wr) p1 (Proc s 0)).1) by by rewrite E.
  unfold parent_code, close in Hhead. rewrite !emit_bind_trace in Hhead.
  cbn [fst] in *. subst t.
  apply Forall_cons in Hall as [_ Hall]. apply Forall_cons in Hall as [_ Hall].
  eexists. split; [reflexivity|]. exact Hall.
Qed.

Lemma reader_table (rd wr : Z) :
  ~ holds (fd_table [EPipe 0 (rd, wr); EFork 0; EClose rd]) PipeRead.
Proof.
  intros [fd H]. unfold fd_table in H. cbn in H.
  destruct (decide (rd = fd)) as [->|Hrd].
  - by rewrite lookup_delete_eq in H.
  - rewrite lookup_delete_ne in H by assumption.
    destruct (decide (wr = fd)) as [->|Hwr].
    + by rewrite lookup_insert_eq in H.
    + by rewrite !lookup_insert_ne, lookup_empty in H.
Qed.

Lemma writer_table (rd wr p1 : Z) :
  ~ holds (fd_table [EPipe 0 (rd, wr); EFork p1; EFork 0; EClose wr]) PipeWrite.
Proof.
  intros [fd H]. unfold fd_table in H. cbn in H.
  destruct (decide (wr = fd)) as [->|Hwr].
  - by rewrite lookup_delete_eq in H.
  - rewrite lookup_delete_ne, lookup_insert_ne in H by assumption.
    destruct (decide (rd = fd)) as [->|Hrd].
    + by rewrite lookup_insert_eq in H.
    + by rewrite lookup_insert_ne, lookup_empty in H.
Qed.

Lemma parent_table (rd wr p1 p2 : Z) (r : resource) :
  ~ holds
      (fd_table [EPipe 0 (rd, wr); EFork p1; EFork p2; EClose rd; EClose wr]) r.
Proof.
  intros [fd H]. unfold fd_table in H. cbn in H.
  destruct (decide (wr = fd)) as [->|Hwr].
  - by rewrite lookup_delete_eq in H.
  - rewrite lookup_delete_ne in H by assumption.
    destruct (decide (rd = fd)) as [->|Hrd].
    + by rewrite lookup_delete_eq in H.
    + by rewrite lookup_delete_ne, !lookup_insert_ne, lookup_empty in H.
Qed.

(** C8: in every run, the first call of child 1 after the fork closes the
    read end and from then on its descriptor table never contains the read
    end; the first call of child 2 closes the write end and from then on
    its table never contains the write end; the parent's first two calls
    after the second fork close both ends, before any [wait], and from then
    on its table contains neither end. *)
Theorem unused_pipe_ends_closed_first
    (argv : list string) (rd wr p1 p2 : Z) (s : list response) :
  p1 > 0 -> p2 > 0 ->
  let reader := (exec (main argv) (RPipeOk rd wr :: RFork 0 :: s)).1 in
  let writer := (exec (main argv) (RPipeOk rd wr :: RFork p1 :: RFork 0 :: s)).1 in
  let parent := (exec (main argv) (RPipeOk rd wr :: RFork p1 :: RFork p2 :: s)).1 in
  (take 3 reader = [EPipe 0 (rd, wr); EFork 0; EClose rd] /\
   forall k, (3 <= k)%nat -> ~ holds (fd_table (take k reader)) PipeRead)
  /\
  (take 4 writer = [EPipe 0 (rd, wr); EFork p1; EFork 0; EClose wr] /\
   forall k, (4 <= k)%nat -> ~ holds (fd_table (take k writer)) PipeWrite)
  /\
  (take 5 parent
   = [EPipe 0 (rd, wr); EFork p1; EFork p2; EClose rd; EClose wr] /\
   List.filter is_wait (take 5 parent) = [] /\
   forall k, (5 <= k)%nat ->
     ~ holds (fd_table (take k parent)) PipeRead /\
     ~ holds (fd_table (take k parent)) PipeWrite).
Proof.
  intros H1 H2 reader writer parent. subst reader writer parent.
  destruct (reader_trace argv rd wr s) as (tr & -> & Hr).
  destruct (writer_trace argv rd wr p1 s H1) as (tw & -> & Hw).
  destruct (parent_trace argv rd wr p1 p2 s H1 H2) as (tp & -> & Hp).
  split; [|split].
  - split; [reflexivity|]. intros k Hk.
    apply not_held_later; [by left|assumption|apply reader_table|exact Hk].
  - split; [reflexivity|]. intros k Hk.
    apply not_held_later; [by right|assumption|apply writer_table|exact Hk].
  - split; [reflexivity|]. split; [reflexivity|]. intros k Hk.
    assert (Forall not_pipe tp)
      by (eapply Forall_impl; [exact Hp|apply parent_event_not_pipe]).
    split; (apply not_held_later;
            [(by left) || (by right)|assumption|apply parent_table|exact Hk]).
Qed.

Lemma unused_pipe_ends_witness :
  take 3 (exec (main ["PipeCopy"; "in"; "out"]%string)
            [RPipeOk 3 4; RFork 0; ROpen 3 0; RRead (ReadBytes [])]).1
  = [EPipe 0 (3, 4); EFork 0; EClose 3].
Proof.
  apply (unused_pipe_ends_closed_first
           ["PipeCopy"; "in"; "out"]%string 3 4 7 8
           [ROpen 3 0; RRead (ReadBytes [])]); lia.
Defined.

(** A freshly forked process holds both ends of the pipe. *)
Lemma both_ends_inherited (rd wr ret : Z) :
  rd <> wr ->
  holds (fd_table [EPipe 0 (rd, wr); EFork ret]) PipeRead /\
  holds (fd_table [EPipe 0 (rd, wr); EFork ret]) PipeWrite.
Proof.
  intros Hne. unfold fd_table. cbn. split.
  - exists rd. by rewrite lookup_insert_ne, lookup_insert_eq.
  - exists wr. by rewrite lookup_insert_eq.
Qed.

(** ** Progress notifications *)

Lemma remainders_nonempty (fuel : nat) (content : list byte) :
  Forall (fun b => b <> []) (remainders fuel content).
Proof.
  revert content. induction fuel as [|fuel IH]; intros [|x content];
    cbn [remainders]; constructor; [discriminate|apply IH].
Qed.

Lemma progress_counts_app (pid : Z) (t1 t2 : list event) :
  progress_counts pid (t1 ++ t2) = progress_counts pid t1 ++ progress_counts pid t2.
Proof. apply omap_app. Qed.

Lemma progress_counts_blocks (src dest pid : Z) (blocks : list (list byte)) :
  progress_counts pid (flat_map (block_events src dest pid) blocks)
  = map block_size blocks.
Proof.
  induction blocks as [|b blocks IH]; [reflexivity|].
  cbn [flat_map map]. rewrite progress_counts_app, IH.
  unfold block_events, progress_counts. cbn [omap list_omap progress_count].
  rewrite bool_decide_eq_true_2, Z.eqb_refl by reflexivity. reflexivity.
Qed.

(** Block sizes of a file of [N] bytes: how many, and the last one. *)
Lemma block_sizes (fuel : nat) (content : list byte) :
  (length content <= fuel)%nat ->
  let N := Z.of_nat (length content) in
  let sizes := map block_size (remainders fuel content) in
  Z.of_nat (length sizes) = (N + BLOCK_SIZE - 1) / BLOCK_SIZE /\
  last sizes
  = if N =? 0 then None
    else Some (if N mod BLOCK_SIZE =? 0 then BLOCK_SIZE else N mod BLOCK_SIZE).
Proof.
  revert content. induction fuel as [|fuel IH]; intros content Hfuel.
  - destruct content; [|cbn in Hfuel; lia]. by cbn.
  - destruct content as [|x content]; [by cbn|].
    cbn [remainders map]. set (l := x :: content) in *.
    specialize (IH (drop (Z.to_nat BLOCK_SIZE) l)).
    assert (Hl : (0 < length l)%nat) by (subst l; cbn; lia).
    rewrite length_drop in IH. cbn zeta in IH.
    destruct IH as [IHlen IHlast]; [unfold BLOCK_SIZE; lia|].
    cbn zeta. unfold block_size at 1 3. rewrite length_take.
    unfold BLOCK_SIZE in *.
    set (N := length l) in *. clearbody N.
    set (sizes := map block_size _) in *. clearbody sizes.
    destruct (Z.eqb_spec (Z.of_nat N) 0) as [E|_]; [lia|].
    split.
    + cbn [length]. rewrite Nat2Z.inj_succ, IHlen.
      destruct (le_lt_dec N 1024).
      * replace (Z.of_nat (N - Z.to_nat 1024)) with 0 by lia.
        change ((0 + 1024 - 1) / 1024) with 0.
        apply (Z.div_unique _ _ _ (Z.of_nat N - 1)); lia.
      * replace (Z.of_nat (N - Z.to_nat 1024)) with (Z.of_nat N - 1 * 1024) by lia.
        replace (Z.of_nat N - 1 * 1024 + 1024 - 1)
          with (Z.of_nat N + 1024 - 1 + (-1) * 1024) by lia.
        rewrite Z.div_add by lia. lia.
    + destruct (le_lt_dec N 1024).
      * replace (Z.of_nat (N - Z.to_nat 1024)) with 0 in IHlast by lia.
        cbn in IHlast. apply last_None in IHlast. subst sizes.
        cbn [last]. f_equal.
        replace (Z.of_nat (Z.to_nat 1024 `min` N)) with (Z.of_nat N) by lia.
        destruct (Z.eq_dec (Z.of_nat N) 1024) as [E|E].
        -- rewrite E. reflexivity.
        -- rewrite Z.mod_small by lia.
           destruct (Z.eqb_spec (Z.of_nat N) 0); lia.
      * replace (Z.of_nat (N - Z.to_nat 1024)) with (Z.of_nat N - 1 * 1024)
          in IHlast by lia.
        destruct (Z.eqb_spec (Z.of_nat N - 1 * 1024) 0) as [E|_]; [lia|].
        replace (Z.of_nat N - 1 * 1024) with (Z.of_nat N + (-1) * 1024)
          in IHlast by lia.
        rewrite Z.mod_add in IHlast by lia.
        rewrite <- IHlast. destruct sizes; [discriminate IHlast|reflexivity].
Qed.

Lemma copy_trace_shape (src dest pid : Z) (st : proc) :
  exists blocks ending,
    (copy src dest pid st).1
    = flat_map (block_events src dest pid) blocks ++ ending
    /\ (ending = [] \/ exists r, r <= 0 /\ ending = [ERead src BLOCK_SIZE r []]).
Proof.
  destruct (copy_cases src dest pid st)
    as (blocks & _ & [(rest & _ & H) | [(e & rest & _ & H) | (tail & _ & _ & H)]]);
    exists blocks; rewrite H; cbn [fst].
  - eexists. split; [reflexivity|]. right. exists 0. split; [lia|reflexivity].
  - eexists. split; [reflexivity|]. right. exists (-1). split; [lia|reflexivity].
  - exists []. split; [by rewrite app_nil_r|by left].
Qed.

Lemma blocks_trace_local (src dest pid : Z) (blocks : list (list byte))
    (ending t1 t2 : list event) (fd cnt n : Z) (d : list byte) :
  (ending = [] \/ exists r, r <= 0 /\ ending = [ERead src BLOCK_SIZE r []]) ->
  flat_map (block_events src dest pid) blocks ++ ending
  = t1 ++ ERead fd cnt n d :: t2 ->
  0 < n ->
  fd = src /\ cnt = BLOCK_SIZE /\ Z.of_nat (length d) = n /\
  exists t3,
    t2 = EPrintf Stdout fmt_progress [AInt pid; AInt n] :: EWrite dest d :: t3 /\
    (t3 = [] \/ exists n' d' t4, t3 = ERead src BLOCK_SIZE n' d' :: t4).
Proof.
  intros Hend. revert t1. induction blocks as [|b blocks IH]; intros t1 Heq Hn.
  - cbn [flat_map app] in Heq. destruct Hend as [-> | (r & Hr & ->)].
    + by destruct t1.
    + destruct t1 as [|e1 t1]; [|by destruct t1].
      injection Heq as <- <- <- <- <-. lia.
  - cbn [flat_map] in Heq. unfold block_events at 1 in Heq. cbn [app] in Heq.
    destruct t1 as [|e1 [|e2 [|e3 t1]]]; cbn [app] in Heq.
    + injection Heq as <- <- <- <- <-. repeat (split; [reflexivity|]).
      eexists. split; [reflexivity|].
      destruct blocks as [|b' blocks]; cbn [flat_map app].
      * destruct Hend as [-> | (r & _ & ->)]; [by left|right; by eexists _, _, _].
      * right. unfold block_events. cbn [app]. by eexists _, _, _.
    + discriminate.
    + discriminate.
    + injection Heq as _ _ _ Heq. by apply (IH t1).
Qed.

(** C4: in any run of [copy], every read with a positive count is followed
    at once by one progress line carrying the tag and that count and by a
    write of exactly the bytes read, then by the next read or nothing more;
    and child 1 reading a regular file of [N] bytes returns 0 after
    ceil(N / BLOCK_SIZE) progress lines (none when [N = 0]), the last one
    carrying [N mod BLOCK_SIZE], or [BLOCK_SIZE] when that is 0. *)
Theorem copy_writes_block_and_reports_progress :
  (forall (src dest pid : Z) (st : proc) (t1 t2 : list event)
          (fd cnt n : Z) (d : list byte),
     (copy src dest pid st).1 = t1 ++ ERead fd cnt n d :: t2 ->
     0 < n ->
     Z.of_nat (length d) = n /\
     exists t3,
       t2 = EPrintf Stdout fmt_progress [AInt pid; AInt n] :: EWrite dest d :: t3 /\
       (t3 = [] \/ exists n' d' t4, t3 = ERead src BLOCK_SIZE n' d' :: t4))
  /\
  (forall (argv : list string) (rd wr src e : Z) (content : list byte),
     0 <= src ->
     let N := Z.of_nat (length content) in
     let run := exec (main argv)
       (RPipeOk rd wr :: RFork 0 :: ROpen src e :: regular_file content) in
     run.2 = Some 0 /\
     Z.of_nat (length (progress_counts 1 run.1)) = (N + BLOCK_SIZE - 1) / BLOCK_SIZE /\
     last (progress_counts 1 run.1)
     = if N =? 0 then None
       else Some (if N mod BLOCK_SIZE =? 0 then BLOCK_SIZE else N mod BLOCK_SIZE)).
Proof.
  split.
  - intros src dest pid st t1 t2 fd cnt n d Heq Hn.
    destruct (copy_trace_shape src dest pid st) as (blocks & ending & Hshape & Hend).
    rewrite Hshape in Heq.
    destruct (blocks_trace_local _ _ _ _ _ _ _ _ _ _ _ Hend Heq Hn)
      as (_ & _ & Hlen & Ht3).
    by split.
  - intros argv rd wr src e content Hsrc N run. subst N run.
    unfold exec. rewrite main_child_1, child_1_code_copy by assumption.
    unfold regular_file. rewrite copy_run_eof by apply remainders_nonempty.
    cbn [fst snd fmap option_fmap option_map]. split; [reflexivity|].
    rewrite !progress_counts_app, progress_counts_blocks.
    unfold closing. cbn. rewrite !app_nil_r.
    by apply block_sizes.
Qed.

Lemma copy_progress_witness :
  let run := exec (main ["PipeCopy"; "in"; "out"]%string)
    (RPipeOk 3 4 :: RFork 0 :: ROpen 3 0 :: regular_file (replicate 2500 x41)) in
  run.2 = Some 0 /\
  Z.of_nat (length (progress_counts 1 run.1)) = (2500 + BLOCK_SIZE - 1) / BLOCK_SIZE /\
  last (progress_counts 1 run.1) = Some 452.
Proof.
  apply (proj2 copy_writes_block_and_reports_progress
           ["PipeCopy"; "in"; "out"]%string 3 4 3 0 (replicate 2500 x41)).
  lia.
Defined.

(** * Further properties of [main] and [copy] *)

(** ** Failure to create the pipe *)

(** X1: when [pipe] fails, [main] prints the pipe-failure line on the error
    stream and returns 1 without forking, opening or closing anything,
    whatever the kernel would have answered next. *)
Theorem pipe_failure_exits_before_fork
    (argv : list string) (e : Z) (s : list response) :
  exec (main argv) (RPipeFail e :: s)
  = ([EPipe (-1) (0, 0); EPrintf Stderr fmt_pipe_failed []], Some 1).
Proof. run_main. reflexivity. Qed.

(** ** What [copy] calls *)

Lemma emits_weaken (P Q : event -> Prop) {A} (m : M A) :
  (forall e, P e -> Q e) -> emits P m -> emits Q m.
Proof. intros HPQ Hm st. eapply Forall_impl; [apply Hm|exact HPQ]. Qed.

Lemma block_events_copy_event (src dest pid : Z) (b : list byte) :
  b <> [] -> Forall (copy_event src dest pid) (block_events src dest pid b).
Proof.
  intros Hb. pose proof (take_block_length b) as Hlen.
  pose proof (take_block_nonempty b Hb) as Hpos.
  unfold block_events. cbn zeta.
  apply Forall_cons. split; [|apply Forall_cons; split; [|apply Forall_cons; split]].
  - cbn. split; [reflexivity|]. split; [reflexivity|]. right. lia.
  - cbn. split; [reflexivity|]. split; [reflexivity|].
    eexists. split; [reflexivity|lia].
  - cbn. split; [reflexivity|lia].
  - constructor.
Qed.

Lemma blocks_copy_event (src dest pid : Z) (blocks : list (list byte)) :
  Forall (fun b => b <> []) blocks ->
  Forall (copy_event src dest pid) (flat_map (block_events src dest pid) blocks).
Proof.
  induction 1 as [|b blocks Hb _ IH]; [constructor|].
  cbn [flat_map]. apply Forall_app. split; [by apply block_events_copy_event|exact IH].
Qed.

Lemma emits_copy_event (src dest pid : Z) :
  emits (copy_event src dest pid) (copy src dest pid).
Proof.
  intros st.
  destruct (copy_cases src dest pid st)
    as (blocks & Hne & [(rest & _ & H) | [(e & rest & _ & H) | (tail & _ & _ & H)]]);
    rewrite H; cbn [fst].
  - apply Forall_app. split; [by apply blocks_copy_event|].
    apply Forall_cons. split; [|constructor].
    cbn. split; [reflexivity|]. split; [reflexivity|].
    right. unfold BLOCK_SIZE. split; [lia|reflexivity].
  - apply Forall_app. split; [by apply blocks_copy_event|].
    apply Forall_cons. split; [|constructor].
    cbn. split; [reflexivity|]. split; [reflexivity|]. by left.
  - by apply blocks_copy_event.
Qed.

(** X2: every call [copy] makes, on any script, is a read of exactly
    [BLOCK_SIZE] bytes from [src] (returning -1 or a count up to
    [BLOCK_SIZE] that is the number of bytes delivered), a progress line
    tagged [pid], or a write to [dest]; progress counts and writes are
    never empty and never exceed [BLOCK_SIZE]. *)
Theorem copy_calls_are_bounded (src dest pid : Z) (st : proc) :
  Forall (copy_event src dest pid) (copy src dest pid st).1.
Proof. apply emits_copy_event. Qed.

(** ** What [copy] forwards *)

Lemma bytes_read_app (fd : Z) (t1 t2 : list event) :
  bytes_read fd (t1 ++ t2) = bytes_read fd t1 ++ bytes_read fd t2.
Proof. apply flat_map_app. Qed.

Lemma bytes_written_app (fd : Z) (t1 t2 : list event) :
  bytes_written fd (t1 ++ t2) = bytes_written fd t1 ++ bytes_written fd t2.
Proof. apply flat_map_app. Qed.

Lemma bytes_read_blocks (src dest pid : Z) (blocks : list (list byte)) :
  bytes_read src (flat_map (block_events src dest pid) blocks)
  = flat_map (take (Z.to_nat BLOCK_SIZE)) blocks.
Proof.
  induction blocks as [|b blocks IH]; [reflexivity|].
  cbn [flat_map]. rewrite bytes_read_app, IH.
  unfold block_events, bytes_read. cbn [flat_map].
  by rewrite Z.eqb_refl, !app_nil_r.
Qed.

Lemma bytes_written_blocks (src dest pid : Z) (blocks : list (list byte)) :
  bytes_written dest (flat_map (block_events src dest pid) blocks)
  = flat_map (take (Z.to_nat BLOCK_SIZE)) blocks.
Proof.
  induction blocks as [|b blocks IH]; [reflexivity|].
  cbn [flat_map]. rewrite bytes_written_app, IH.
  unfold block_events, bytes_written. cbn [flat_map].
  by rewrite Z.eqb_refl, !app_nil_r.
Qed.

(** X3: on any script, the bytes [copy] hands to [write] for [dest] are,
    in order, exactly the bytes its reads from [src] delivered: nothing is
    dropped, duplicated or reordered, also when the loop ends in a read
    error or has not ended. *)
Theorem copy_forwards_what_it_reads (src dest pid : Z) (st : proc) :
  bytes_written dest (copy src dest pid st).1
  = bytes_read src (copy src dest pid st).1.
Proof.
  destruct (copy_cases src dest pid st)
    as (blocks & Hne & [(rest & _ & H) | [(e & rest & _ & H) | (tail & _ & _ & H)]]);
    rewrite H; cbn [fst];
    rewrite ?bytes_written_app, ?bytes_read_app,
      bytes_written_blocks, bytes_read_blocks;
    cbn; by rewrite ?Z.eqb_refl.
Qed.

(** ** From the source file to the destination file *)


Lemma closing_no_write (r file pipe_end en fd : Z) :
  bytes_written fd (closing r file pipe_end en) = [].
Proof. unfold closing. by destruct (r <? 0). Qed.



Lemma take_blocks_concat (blocks : list (list byte)) :
  Forall (fun b => b <> [] /\ Z.of_nat (length b) <= BLOCK_SIZE) blocks ->
  flat_map (take (Z.to_nat BLOCK_SIZE)) blocks = concat blocks.
Proof.
  induction 1 as [|b blocks [_ Hb] _ IH]; [reflexivity|].
  cbn [flat_map concat]. rewrite IH, take_ge; [reflexivity|].
  unfold BLOCK_SIZE in *. lia.
Qed.

(** X5: however the pipe splits the stream into reads of 1 to [BLOCK_SIZE]
    bytes, child 2 hands to [write] on the destination file the
    concatenation of the pieces and returns 0 once the pipe reports end of
    stream. *)
Theorem child_2_stores_stream
    (argv : list string) (rd wr p1 file e : Z) (blocks : list (list byte))
    (rest : list response) :
  0 <= file -> p1 > 0 ->
  Forall (fun b => b <> [] /\ Z.of_nat (length b) <= BLOCK_SIZE) blocks ->
  let run := exec (main argv)
    (RPipeOk rd wr :: RFork p1 :: RFork 0 :: ROpen file e
     :: positive_reads blocks ++ RRead (ReadBytes []) :: rest) in
  run.2 = Some 0 /\ bytes_written file run.1 = concat blocks.
Proof.
  intros Hfile Hp1 Hblocks run. subst run.
  assert (Hne : Forall (fun b : list byte => b <> []) blocks)
    by (eapply Forall_impl; [exact Hblocks|by intros b [Hb _]]).
  unfold exec. rewrite main_child_2, child_2_code_copy by assumption.
  cbn zeta. rewrite copy_run_eof by assumption.
  cbn [fst snd fmap option_fmap option_map]. split; [reflexivity|].
  rewrite !bytes_written_app, bytes_written_blocks, closing_no_write.
  cbn. rewrite !app_nil_r. by apply take_blocks_concat.
Qed.

Lemma child_2_stores_stream_witness :
  bytes_written 4
    (exec (main ["PipeCopy"; "in"; "out"]%string)
       (RPipeOk 3 4 :: RFork 7 :: RFork 0 :: ROpen 4 0
        :: positive_reads [[x61; x62]; [x63]] ++ [RRead (ReadBytes [])])).1
  = concat [[x61; x62]; [x63]].
Proof.
  apply (child_2_stores_stream
           ["PipeCopy"; "in"; "out"]%string 3 4 7 4 0 [[x61; x62]; [x63]] []);
    [lia|lia|].
  repeat constructor; (discriminate || (unfold BLOCK_SIZE; cbn; lia)).
Defined.

(** ** Exit codes *)

Lemma returns_ret {A} (P : A -> Prop) (a : A) : P a -> returns P (mret a).
Proof. intros Ha st t b st' H. by injection H as _ <- _. Qed.

Lemma returns_bind {A B} (P : B -> Prop) (m : M A) (k : A -> M B) :
  (forall a, returns P (k a)) -> returns P (m ≫= k).
Proof.
  intros Hk st t b st' H. unfold mbind, M_bind in H.
  destruct (m st) as [t1 [[a st1]|]]; [|discriminate].
  destruct (k a st1) as [t2 r] eqn:E. injection H as _ ->.
  eapply Hk. exact E.
Qed.

Ltac returns_tac :=
  repeat first
    [ apply returns_ret; tauto
    | apply returns_bind; intros ?
    | match goal with |- returns _ (if ?b then _ else _) => destruct b end ].

Lemma returns_main (argv : list string) :
  returns (fun c => c = 0 \/ c = 1 \/ c = 2) (main argv).
Proof.
  unfold main. apply returns_bind. intros [failed fd].
  destruct (negb (failed =? 0)); [returns_tac|].
  apply returns_bind. intros child_1. apply returns_bind. intros child_2.
  unfold parent_code, child_1_code, child_2_code, error_code.
  returns_tac.
Qed.

(** X6: in every process and on every script, if [main] returns, its exit
    code is 0, 1 or 2. *)
Theorem main_exit_code_range (argv : list string) (s : list response) (c : Z) :
  (exec (main argv) s).2 = Some c -> c = 0 \/ c = 1 \/ c = 2.
Proof.
  unfold exec. destruct (main argv _) as [t [[c' st']|]] eqn:E; [|discriminate].
  cbn. intros [= <-]. by eapply returns_main.
Qed.

Lemma main_exit_code_range_witness : 2 = 0 \/ 2 = 1 \/ 2 = 2.
Proof.
  apply (main_exit_code_range ["PipeCopy"; "in"; "out"]%string
           [RPipeOk 3 4; RFork 0; ROpen 3 0; RRead (ReadFail 5)]).
  vm_compute. reflexivity.
Defined.

(** ** Descriptors left open when a process returns *)

Lemma foldl_neutral (t : list event) (tbl : gmap Z resource) :
  Forall table_neutral t -> foldl fd_step tbl t = tbl.
Proof.
  induction 1 as [|e t He _ IH]; [reflexivity|].
  cbn [foldl]. rewrite <- IH at 2. f_equal. by destruct e.
Qed.

Lemma copy_event_neutral (src dest pid : Z) (e : event) :
  copy_event src dest pid e -> table_neutral e.
Proof. by destruct e. Qed.

Ltac table_empty :=
  apply map_eq; intros ?;
  repeat first [ rewrite lookup_empty | rewrite lookup_delete | rewrite lookup_insert
               | case_decide ];
  congruence.

Lemma foldl_closes_on_empty (t : list event) :
  Forall parent_event t -> foldl fd_step (∅ : gmap Z resource) t = ∅.
Proof.
  induction 1 as [|e t He _ IH]; [reflexivity|].
  cbn [foldl]. rewrite <- IH at 2. f_equal.
  destruct e; first [done | apply delete_empty].
Qed.

Lemma child_1_table (argv : list string) (rd wr en c : Z) (s : list response)
    (t : list event) (st' : proc) :
  child_1_code (rd, wr) argv (Proc s en) = (t, Some (c, st')) ->
  fd_table ([EPipe 0 (rd, wr); EFork 0] ++ t) = ∅.
Proof.
  intros H. destruct s as [|r s]; [discriminate H|].
  destruct r as [| | | |file e|]; try discriminate H.
  destruct (Z.ltb_spec file 0) as [Hneg|Hpos].
  - assert (E : (file <? 0) = true) by by apply Z.ltb_lt.
    unfold child_1_code in H. revert H. run_step. rewrite E. cbn.
    intros [= <- _ _]. unfold fd_table. cbn. rewrite E. table_empty.
  - assert (E : (file <? 0) = false) by by apply Z.ltb_ge.
    rewrite child_1_code_copy in H by assumption.
    pose proof (emits_copy_event file wr 1 (Proc s en)) as Hneutral.
    destruct (copy file wr 1 _) as [tc [[r st'']|]]; [|discriminate H].
    injection H as <- _ _. cbn [fst] in Hneutral.
    unfold fd_table. cbn [app foldl]. rewrite foldl_app, (foldl_neutral tc)
      by (eapply Forall_impl; [exact Hneutral|apply copy_event_neutral]).
    unfold closing. destruct (r <? 0); cbn; rewrite E; table_empty.
Qed.

Lemma child_2_table (argv : list string) (rd wr p1 en c : Z) (s : list response)
    (t : list event) (st' : proc) :
  child_2_code (rd, wr) argv (Proc s en) = (t, Some (c, st')) ->
  fd_table ([EPipe 0 (rd, wr); EFork p1; EFork 0] ++ t) = ∅.
Proof.
  intros H. destruct s as [|r s]; [discriminate H|].
  destruct r as [| | | |file e|]; try discriminate H.
  destruct (Z.ltb_spec file 0) as [Hneg|Hpos].
  - assert (E : (file <? 0) = true) by by apply Z.ltb_lt.
    unfold child_2_code in H. revert H. run_step. rewrite E. cbn.
    intros [= <- _ _]. unfold fd_table. cbn. rewrite E. table_empty.
  - assert (E : (file <? 0) = false) by by apply Z.ltb_ge.
    rewrite child_2_code_copy in H by assumption. cbn zeta in H.
    pose proof (emits_copy_event rd file 2 (Proc s en)) as Hneutral.
    destruct (copy rd file 2 _) as [tc [[r st'']|]]; [|discriminate H].
    injection H as <- _ _. cbn [fst] in Hneutral.
    unfold fd_table. cbn [app foldl]. rewrite foldl_app, (foldl_neutral tc)
      by (eapply Forall_impl; [exact Hneutral|apply copy_event_neutral]).
    unfold closing. destruct (r <? 0); cbn; rewrite E; table_empty.
Qed.

(** X7: a process that returns from [main] as child 1, as child 2 or as
    the parent of both has closed every descriptor it held: the pipe ends
    it inherited and the file it opened, on the success path as well as
    after a failed [open] or a failed copy. *)
Theorem returning_process_holds_no_descriptor
    (argv : list string) (rd wr p1 p2 c : Z) (s : list response)
    (t : list event) :
  p1 > 0 -> p2 > 0 ->
  (exec (main argv) (RPipeOk rd wr :: RFork 0 :: s) = (t, Some c) ->
   fd_table t = ∅)
  /\
  (exec (main argv) (RPipeOk rd wr :: RFork p1 :: RFork 0 :: s) = (t, Some c) ->
   fd_table t = ∅)
  /\
  (exec (main argv) (RPipeOk rd wr :: RFork p1 :: RFork p2 :: s) = (t, Some c) ->
   fd_table t = ∅).
Proof.
  intros H1 H2. split; [|split]; intros H.
  - unfold exec in H. rewrite main_child_1 in H.
    destruct (child_1_code _ _ _) as [t' [[c' st']|]] eqn:E; [|discriminate H].
    injection H as <- _. by eapply child_1_table.
  - unfold exec in H. rewrite main_child_2 in H by assumption.
    destruct (child_2_code _ _ _) as [t' [[c' st']|]] eqn:E; [|discriminate H].
    injection H as <- _. by eapply child_2_table.
  - destruct (parent_trace argv rd wr p1 p2 s H1 H2) as (t' & Ht & Hall).
    rewrite H in Ht. cbn [fst] in Ht. subst t.
    unfold fd_table. rewrite foldl_app.
    replace (foldl fd_step ∅ [EPipe 0 (rd, wr); EFork p1; EFork p2; EClose rd; EClose wr])
      with (∅ : gmap Z resource) by (cbn; symmetry; table_empty).
    by apply foldl_closes_on_empty.
Qed.

Lemma returning_process_witness :
  fd_table
    [EPipe 0 (3, 4); EFork 0; EClose 3; EOpen "in" [O_RDONLY] [] 3;
     ERead 3 1024 (-1) [];
     EPrintf Stdout fmt_copy_error [AStrerror 5]; EClose 3; EClose 4] = ∅.
Proof.
  apply (proj1 (returning_process_holds_no_descriptor
                  ["PipeCopy"; "in"; "out"]%string 3 4 7 8 2
                  [ROpen 3 0; RRead (ReadFail 5)] _ ltac:(lia) ltac:(lia))).
  vm_compute. reflexivity.
Defined.

(** X8: when the second [fork] fails the parent returns 1 with both ends
    of the pipe still open: this path closes nothing. *)
Theorem second_fork_failure_leaves_pipe_open
    (argv : list string) (rd wr p1 p2 : Z) (s : list response) :
  p1 > 0 -> p2 < 0 -> rd <> wr ->
  let run := exec (main argv) (RPipeOk rd wr :: RFork p1 :: RFork p2 :: s) in
  run.2 = Some 1 /\
  fd_table run.1 !! rd = Some PipeRead /\
  fd_table run.1 !! wr = Some PipeWrite.
Proof.
  intros H1 H2 Hne run. subst run. run_main. unfold fd_table. cbn.
  split; [reflexivity|]. split.
  - by rewrite lookup_insert_ne, lookup_insert_eq.
  - by rewrite lookup_insert_eq.
Qed.

Lemma second_fork_failure_leaves_pipe_open_witness :
  fd_table
    (exec (main ["PipeCopy"; "in"; "out"]%string)
       [RPipeOk 3 4; RFork 7; RFork (-1)]).1 !! 3 = Some PipeRead.
Proof.
  apply (second_fork_failure_leaves_pipe_open
           ["PipeCopy"; "in"; "out"]%string 3 4 7 (-1) []); lia.
Defined.

(** ** The parent after both forks *)

Lemma emits_wait_loop_supervisor (n : nat) (child_1 : Z) (error : bool) :
  emits supervisor_event (wait_loop n child_1 error).
Proof.
  revert error. induction n as [|n IH]; intros error; cbn [wait_loop].
  - apply emits_ret.
  - apply emits_bind.
    + apply emits_answer. intros r en ev a en' H.
      destruct r; try discriminate. by injection H as <- _ _.
    + intros [done status]. unfold printf.
      destruct (WEXITSTATUS status =? 0);
        (apply emits_bind; [by apply emits_emit|]); intros _; apply IH.
Qed.

Lemma emits_parent_code_supervisor (fd : Z * Z) (child_1 : Z) :
  emits supervisor_event (parent_code fd child_1).
Proof.
  unfold parent_code, close, printf.
  apply emits_bind; [by apply emits_emit|]. intros _.
  apply emits_bind; [by apply emits_emit|]. intros _.
  apply emits_bind; [apply emits_wait_loop_supervisor|]. intros error.
  destruct error; cbn [negb]; emits_tac.
Qed.

(** X9: once both forks succeeded, everything the parent does is closing
    descriptors, waiting and printing to standard output: on no script does
    it read, write or open anything, or fork again. *)
Theorem parent_only_closes_waits_and_prints
    (argv : list string) (rd wr p1 p2 : Z) (s : list response) :
  p1 > 0 -> p2 > 0 ->
  exists t',
    (exec (main argv) (RPipeOk rd wr :: RFork p1 :: RFork p2 :: s)).1
    = [EPipe 0 (rd, wr); EFork p1; EFork p2] ++ t'
    /\ Forall supervisor_event t'.
Proof.
  intros H1 H2. rewrite exec_trace, main_parent by assumption.
  pose proof (emits_parent_code_supervisor (rd, wr) p1 (Proc s 0)) as Hall.
  destruct (parent_code _ _ _) as [t r]. cbn [fst] in *. by exists t.
Qed.

Lemma parent_only_closes_witness :
  exists t',
    (exec (main ["PipeCopy"; "in"; "out"]%string)
       [RPipeOk 3 4; RFork 7; RFork 8; RWait 8 0; RWait 7 256]).1
    = [EPipe 0 (3, 4); EFork 7; EFork 8] ++ t'
    /\ Forall supervisor_event t'.
Proof.
  apply (parent_only_closes_waits_and_prints
           ["PipeCopy"; "in"; "out"]%string 3 4 7 8 [RWait 8 0; RWait 7 256]); lia.
Defined.

(** X10: the parent of two children returns only after [wait] has
    answered twice, and then with 0 or 2: it never returns 1, and on a
    script with fewer than two wait answers it does not return. *)
Theorem parent_returns_after_two_waits
    (argv : list string) (rd wr p1 p2 c : Z) (s : list response)
    (t : list event) :
  p1 > 0 -> p2 > 0 ->
  exec (main argv) (RPipeOk rd wr :: RFork p1 :: RFork p2 :: s) = (t, Some c) ->
  (exists d1 s1 d2 s2 rest, s = RWait d1 s1 :: RWait d2 s2 :: rest) /\
  (c = 0 \/ c = 2).
Proof.
  intros H1 H2 H.
  destruct s as [|r1 s]; [revert H; run_main; discriminate|].
  destruct r1; try (revert H; run_main; discriminate).
  destruct s as [|r2 s]; [revert H; run_main; discriminate|].
  destruct r2; try (revert H; run_main; discriminate).
  split; [by eexists _, _, _, _, _|].
  unfold exec in H. rewrite parent_run in H by assumption.
  cbn in H. injection H as _ <-.
  destruct (_ && _); [by left|by right].
Qed.

Lemma parent_returns_witness :
  (exists d1 s1 d2 s2 rest,
      [RWait 8 0; RWait 7 256] = RWait d1 s1 :: RWait d2 s2 :: rest) /\
  (2 = 0 \/ 2 = 2).
Proof.
  eapply (parent_returns_after_two_waits
            ["PipeCopy"; "in"; "out"]%string 3 4 7 8 2 [RWait 8 0; RWait 7 256]);
    [lia|lia|].
  vm_compute. reflexivity.
Defined.

(** X11: when a child that returns [c] from [main] leaves the wait status
    [c * 256], the parent prints for each child the line for its own exit
    code, the failure line showing [c], and returns 0 exactly when both
    children returned 0. *)
Theorem parent_reports_exit_codes
    (argv : list string) (rd wr p1 p2 c1 c2 : Z) (rest : list response) :
  p1 > 0 -> p2 > 0 -> p1 <> p2 ->
  0 <= c1 < 256 -> 0 <= c2 < 256 ->
  exec (main argv)
    (RPipeOk rd wr :: RFork p1 :: RFork p2
     :: RWait p1 (c1 * 256) :: RWait p2 (c2 * 256) :: rest)
  = ([EPipe 0 (rd, wr); EFork p1; EFork p2; EClose rd; EClose wr;
      EWait p1 (c1 * 256); exit_line 1 c1;
      EWait p2 (c2 * 256); exit_line 2 c2;
      aggregate_line ((c1 =? 0) && (c2 =? 0))],
     Some (if (c1 =? 0) && (c2 =? 0) then 0 else 2)).
Proof.
  intros H1 H2 Hne Hc1 Hc2. unfold exec. rewrite parent_run by assumption.
  unfold child_line, exit_line. rewrite !WEXITSTATUS_exit_code by assumption.
  rewrite Z.eqb_refl. destruct (Z.eqb_spec p1 p2) as [E|_]; [contradiction|].
  reflexivity.
Qed.

Lemma parent_reports_exit_codes_witness :
  exec (main ["PipeCopy"; "in"; "out"]%string)
    [RPipeOk 3 4; RFork 7; RFork 8; RWait 7 (1 * 256); RWait 8 (0 * 256)]
  = ([EPipe 0 (3, 4); EFork 7; EFork 8; EClose 3; EClose 4;
      EWait 7 (1 * 256); exit_line 1 1;
      EWait 8 (0 * 256); exit_line 2 0;
      aggregate_line ((1 =? 0) && (0 =? 0))],
     Some (if (1 =? 0) && (0 =? 0) then 0 else 2)).
Proof.
  apply (parent_reports_exit_codes
           ["PipeCopy"; "in"; "out"]%string 3 4 7 8 1 0 []); lia.
Defined.

(** ** Files opened and processes created *)

Lemma emits_strerror (P : event -> Prop) : emits P strerror_errno.
Proof. intros st. constructor. Qed.

Lemma emits_pipe (P : event -> Prop) (fd : Z * Z) :
  (forall ret fd', P (EPipe ret fd')) -> emits P (pipe fd).
Proof.
  intros H. apply emits_answer. intros r en ev a en' E.
  destruct r; try discriminate; by injection E as <- _ _.
Qed.


Ltac emits_with tac :=
  repeat first
    [ apply emits_ret
    | apply emits_strerror
    | apply emits_emit; first [exact I | reflexivity]
    | apply emits_open; intros; cbn; tauto
    | tac
    | apply emits_bind; [|intros ?]
    | match goal with |- emits _ (if ?b then _ else _) => destruct b end ].




Lemma forks_at_most_mono {A} (n n' : nat) (m : M A) :
  (n <= n')%nat -> forks_at_most n m -> forks_at_most n' m.
Proof. intros Hn Hm st. specialize (Hm st). lia. Qed.

Lemma filter_fork_nil (t : list event) :
  Forall (fun e => is_fork e = false) t -> List.filter is_fork t = [].
Proof.
  induction 1 as [|e t He _ IH]; [reflexivity|]. cbn. by rewrite He.
Qed.

Lemma forks_emits {A} (m : M A) :
  emits (fun e => is_fork e = false) m -> forks_at_most 0 m.
Proof. intros Hm st. by rewrite filter_fork_nil. Qed.

Lemma forks_bind {A B} (a b : nat) (m : M A) (k : A -> M B) :
  forks_at_most a m -> (forall x, forks_at_most b (k x)) ->
  forks_at_most (a + b) (m ≫= k).
Proof.
  intros Hm Hk st. unfold mbind, M_bind. specialize (Hm st).
  destruct (m st) as [t1 [[x st1]|]]; cbn [fst] in *; [|lia].
  specialize (Hk x st1). destruct (k x st1) as [t2 r]; cbn [fst] in *.
  rewrite List.filter_app, length_app. lia.
Qed.

Lemma forks_fork : forks_at_most 1 fork.
Proof.
  intros [s en]. unfold fork, answer. cbn [script errno].
  destruct s as [|r rest]; [cbn; lia|]. destruct r; cbn; lia.
Qed.

Lemma worker_event_not_fork (e : event) : worker_event e -> is_fork e = false.
Proof. by destruct e. Qed.

Lemma parent_event_not_fork (e : event) : parent_event e -> is_fork e = false.
Proof. by destruct e. Qed.

Lemma forks_main (argv : list string) : forks_at_most 2 (main argv).
Proof.
  unfold main. apply (forks_bind 0 2).
  { apply forks_emits. by apply emits_pipe. }
  intros [failed fd]. destruct (negb (failed =? 0)).
  { apply (forks_at_most_mono 0); [lia|]. apply forks_emits.
    unfold fprintf. emits_with fail. }
  apply (forks_bind 1 1); [apply forks_fork|]. intros child_1.
  apply (forks_bind 1 0).
  { destruct (child_1 >? 0); [apply forks_fork|].
    apply (forks_at_most_mono 0); [lia|]. apply forks_emits, emits_ret. }
  intros child_2. apply forks_emits.
  destruct (child_2 >? 0).
  { eapply emits_weaken; [apply parent_event_not_fork|apply emits_parent_code]. }
  destruct (child_1 =? 0).
  { eapply emits_weaken; [apply worker_event_not_fork|apply emits_child_1_code]. }
  destruct (child_2 =? 0).
  { eapply emits_weaken; [apply worker_event_not_fork|apply emits_child_2_code]. }
  unfold error_code, printf. emits_with fail.
Qed.

(** X13: on every script [main] calls [fork] at most twice, and a process
    to which [fork] returned 0 never forks: the only forks in the run of
    child 1, and of child 2, are those that led to its creation. *)
Theorem main_forks_at_most_twice
    (argv : list string) (rd wr p1 : Z) (s : list response) :
  (length (List.filter is_fork (exec (main argv) s).1) <= 2)%nat
  /\
  List.filter is_fork (exec (main argv) (RPipeOk rd wr :: RFork 0 :: s)).1
  = [EFork 0]
  /\
  (p1 > 0 ->
   List.filter is_fork
     (exec (main argv) (RPipeOk rd wr :: RFork p1 :: RFork 0 :: s)).1
   = [EFork p1; EFork 0]).
Proof.
  split; [|split].
  - rewrite exec_trace. apply forks_main.
  - rewrite exec_trace, main_child_1.
    pose proof (emits_child_1_code (rd, wr) argv (Proc s 0)) as Hall.
    destruct (child_1_code _ _ _) as [t r]. cbn [fst] in *.
    rewrite List.filter_app, (filter_fork_nil t); [reflexivity|].
    eapply Forall_impl; [exact Hall|apply worker_event_not_fork].
  - intros H1. rewrite exec_trace, main_child_2 by assumption.
    pose proof (emits_child_2_code (rd, wr) argv (Proc s 0)) as Hall.
    destruct (child_2_code _ _ _) as [t r]. cbn [fst] in *.
    rewrite List.filter_app, (filter_fork_nil t); [reflexivity|].
    eapply Forall_impl; [exact Hall|apply worker_event_not_fork].
Qed.

Lemma main_forks_witness :
  List.filter is_fork
    (exec (main ["PipeCopy"; "in"; "out"]%string)
       [RPipeOk 3 4; RFork 7; RFork 0; ROpen 4 0; RRead (ReadBytes [])]).1
  = [EFork 7; EFork 0].
Proof.
  apply (main_forks_at_most_twice
           ["PipeCopy"; "in"; "out"]%string 3 4 7
           [ROpen 4 0; RRead (ReadBytes [])]).
  lia.
Defined.

(** ** A read error during the copy *)

(** X14: when a read fails after some blocks were copied, the worker has
    already forwarded every earlier block, makes no further read or write,
    prints the copy-error line with the [errno] of the failing read (not
    that of the earlier [open]), closes its file and its pipe end and
    returns 2.  First child 1, then child 2. *)
Theorem read_error_ends_worker
    (argv : list string) (rd wr p1 file e0 e : Z) (blocks : list (list byte))
    (rest : list response) :
  0 <= file -> p1 > 0 -> Forall (fun b => b <> []) blocks ->
  exec (main argv)
    (RPipeOk rd wr :: RFork 0 :: ROpen file e0
     :: positive_reads blocks ++ RRead (ReadFail e) :: rest)
  = ([EPipe 0 (rd, wr); EFork 0; EClose rd;
      EOpen (argv_at argv 1) [O_RDONLY] [] file]
       ++ flat_map (block_events file wr 1) blocks
       ++ [ERead file BLOCK_SIZE (-1) [];
           EPrintf Stdout fmt_copy_error [AStrerror e];
           EClose file; EClose wr],
     Some 2)
  /\
  exec (main argv)
    (RPipeOk rd wr :: RFork p1 :: RFork 0 :: ROpen file e0
     :: positive_reads blocks ++ RRead (ReadFail e) :: rest)
  = ([EPipe 0 (rd, wr); EFork p1; EFork 0; EClose wr;
      EOpen (argv_at argv 2) [O_WRONLY; O_CREAT; O_TRUNC]
            [S_IRUSR; S_IWUSR; S_IRGRP; S_IWGRP; S_IROTH] file]
       ++ flat_map (block_events rd file 2) blocks
       ++ [ERead rd BLOCK_SIZE (-1) [];
           EPrintf Stdout fmt_copy_error [AStrerror e];
           EClose file; EClose rd],
     Some 2).
Proof.
  intros Hfile Hp1 Hne. unfold exec. split.
  - rewrite main_child_1, child_1_code_copy, copy_run_fail by assumption.
    unfold closing. cbn. by rewrite <- !app_assoc.
  - rewrite main_child_2, child_2_code_copy by assumption. cbn zeta.
    rewrite copy_run_fail by assumption.
    unfold closing. cbn. by rewrite <- !app_assoc.
Qed.

Lemma read_error_ends_worker_witness :
  exec (main ["PipeCopy"; "in"; "out"]%string)
    (RPipeOk 3 4 :: RFork 0 :: ROpen 3 0
     :: positive_reads [[x61; x62]] ++ RRead (ReadFail 5) :: [])
  = ([EPipe 0 (3, 4); EFork 0; EClose 3; EOpen "in" [O_RDONLY] [] 3]
       ++ flat_map (block_events 3 4 1) [[x61; x62]]
       ++ [ERead 3 BLOCK_SIZE (-1) [];
           EPrintf Stdout fmt_copy_error [AStrerror 5];
           EClose 3; EClose 4],
     Some 2).
Proof.
  apply (read_error_ends_worker
           ["PipeCopy"; "in"; "out"]%string 3 4 7 3 0 5 [[x61; x62]] []);
    [lia|lia|].
  repeat constructor. discriminate.
Defined.

(** ** A failing first fork *)

Lemma copy_event_not_bare (src dest pid : Z) (e : event) :
  copy_event src dest pid e -> not_bare_line e.
Proof.
  destruct e; try done. cbn. by intros (_ & _ & n & -> & _).
Qed.

Lemma emits_child_2_code_lines (fd : Z * Z) (argv : list string) :
  emits not_bare_line (child_2_code fd argv).
Proof.
  unfold child_2_code, close, printf.
  emits_with ltac:(eapply emits_weaken;
                   [apply copy_event_not_bare|apply emits_copy_event]).
Qed.

(** X15: whenever the first [fork] returns a negative value, the process
    goes on with the code of child 2: its next call closes the write end
    of the pipe, its exit code is the one that code returns, and it
    prints no line without arguments, so the fork-failure line is never
    printed. *)
Theorem first_fork_failure_is_never_reported
    (argv : list string) (rd wr ret : Z) (s : list response) :
  ret < 0 ->
  let run := exec (main argv) (RPipeOk rd wr :: RFork ret :: s) in
  take 3 run.1 = [EPipe 0 (rd, wr); EFork ret; EClose wr] /\
  run.2 = fst <$> (child_2_code (rd, wr) argv (Proc s 0)).2 /\
  EPrintf Stdout fmt_fork_failed [] ∉ run.1.
Proof.
  intros Hret run. subst run. unfold exec.
  rewrite main_first_fork_failed by assumption.
  pose proof (emits_child_2_code_lines (rd, wr) argv (Proc s 0)) as Hall.
  assert (Hhead : exists t', (child_2_code (rd, wr) argv (Proc s 0)).1
                             = EClose wr :: t').
  { unfold child_2_code, close. rewrite emit_bind_trace. by eexists. }
  destruct (child_2_code _ _ _) as [t r]. cbn [fst snd] in *.
  destruct Hhead as [t' ->]. split; [reflexivity|]. split; [reflexivity|].
  cbn [app]. rewrite !elem_of_cons. intros [H|[H|[H|H]]]; try discriminate H.
  rewrite Forall_forall in Hall.
  apply (Hall (EPrintf Stdout fmt_fork_failed [])), elem_of_cons. by right.
Qed.

Lemma first_fork_failure_witness :
  EPrintf Stdout fmt_fork_failed []
  ∉ (exec (main ["PipeCopy"; "in"; "out"]%string)
       [RPipeOk 3 4; RFork (-1); ROpen (-1) 13]).1.
Proof.
  apply (first_fork_failure_is_never_reported
           ["PipeCopy"; "in"; "out"]%string 3 4 (-1) [ROpen (-1) 13]).
  lia.
Defined.
